(** * jobs-scraper: crawl-and-reconcile engine

    A shallow embedding of the three script variants of the scraper
    ([src/index.js], [src/unnamed/part_000], [src/unnamed/part_001]) and the
    properties of its text normaliser, page extractor, pagination
    controller, crawl aggregator and reconciliation engine.

    The browser, the Supabase store, the ingestion endpoint, the clock and
    the process environment are collaborators: they appear as explicit
    arguments (a [Site], a [Store] with a fault oracle, a sink, clock
    readings, an [Env] record), and every function of the scripts is a
    function of them. *)

From Stdlib Require Import NArith ZArith String Ascii.
From stdpp Require Import gmap list.
From Equations Require Import Equations.

Set Default Proof Using "Type".
Set Warnings "-clear-no-such-hyp".

(* ================================================================== *)
(** * The JavaScript values the scripts compute with                *)
(* ================================================================== *)

Module Js.

(** A JS string is a sequence of UTF-16 code units. *)
Abbreviation jsstr := (list N) (only parsing).

(** String literals of the scripts (all of them ASCII). *)
Definition js (s : string) : jsstr := N_of_ascii <$> list_ascii_of_string s.

Definition SP : N := 32.
Definition COMMA : N := 44.

(** The code units matched by the regular expression class [\s], which are
    also the ones [String.prototype.trim] strips (ECMAScript WhiteSpace and
    LineTerminator). *)
Definition is_ws (c : N) : bool :=
  ((9 <=? c) && (c <=? 13) || (c =? 32) || (c =? 160) || (c =? 5760)
   || (8192 <=? c) && (c <=? 8202) || (c =? 8232) || (c =? 8233)
   || (c =? 8239) || (c =? 8287) || (c =? 12288) || (c =? 65279))%N.

(** [s.trimStart()] *)
Fixpoint trimStart (s : jsstr) : jsstr :=
  match s with
  | [] => []
  | c :: t => if is_ws c then trimStart t else s
  end.

(** [s.trimEnd()] *)
Fixpoint trimEnd (s : jsstr) : jsstr :=
  match s with
  | [] => []
  | c :: t =>
      match trimEnd t with
      | [] => if is_ws c then [] else [c]
      | r => c :: r
      end
  end.

(** [s.trim()] *)
Definition trim (s : jsstr) : jsstr := trimEnd (trimStart s).

(** [s.replace(/\s+/g, ' ')]: every maximal run of whitespace becomes one
    space. [in_run] tells that the previous code unit belonged to a run
    whose replacement has been emitted already. *)
Fixpoint replace_ws_from (in_run : bool) (s : jsstr) : jsstr :=
  match s with
  | [] => []
  | c :: t =>
      if is_ws c
      then (if in_run then replace_ws_from true t
            else SP :: replace_ws_from true t)
      else c :: replace_ws_from false t
  end.

Definition replace_ws (s : jsstr) : jsstr := replace_ws_from false s.

(** [s.split(sep)] for a one-unit separator: never empty, [''.split(',')]
    is [['']]. *)
Fixpoint split (sep : N) (s : jsstr) : list jsstr :=
  match s with
  | [] => [[]]
  | c :: t =>
      if (c =? sep)%N then [] :: split sep t
      else match split sep t with
           | h :: r => (c :: h) :: r
           | [] => [[c]]
           end
  end.

(** A value that is a string, [null] or [undefined]; [None] stands for
    both absent values. *)
Abbreviation jsval := (option (list N)) (only parsing).

(** Truthiness of such a value: absent and [''] are falsy. *)
Definition truthy (v : jsval) : bool :=
  match v with
  | Some (_ :: _) => true
  | _ => false
  end.

(** [a || b] *)
Definition or_else (a b : jsval) : jsval := if truthy a then a else b.

(** [v || ''] *)
Definition or_empty (v : jsval) : jsstr :=
  match v with
  | Some s => s
  | None => []
  end.

(** [Boolean(s)] on a string, the predicate of [filter(Boolean)]. *)
Definition nonempty (s : jsstr) : bool :=
  match s with
  | [] => false
  | _ :: _ => true
  end.

(** [`${a} ${b}`] *)
Definition template_sp (a b : jsstr) : jsstr := a ++ SP :: b.

(** ** [Map]: keys keep the position of their first insertion *)

Section JsMap.
Context {V : Type}.

Definition JsMap : Type := list (list N * V).

(** [m.set(k, v)] *)
Fixpoint map_set (k : jsstr) (v : V) (m : JsMap) : JsMap :=
  match m with
  | [] => [(k, v)]
  | (k', v') :: r =>
      if decide (k' = k) then (k, v) :: r else (k', v') :: map_set k v r
  end.

(** [Array.from(m.values())] *)
Definition map_values (m : JsMap) : list V := m.*2.

(** [m.size] *)
Definition map_size (m : JsMap) : nat := length m.

(** [m.get(k)] *)
Fixpoint map_get (k : jsstr) (m : JsMap) : option V :=
  match m with
  | [] => None
  | (k', v') :: r => if decide (k' = k) then Some v' else map_get k r
  end.
End JsMap.
Arguments JsMap : clear implicits.

(** ** Exceptions and completion of an [async] function *)

Inductive JsError : Type :=
  | TimeoutError        (* a Playwright wait ran out of time *)
  | NavigationError     (* page.goto rejected *)
  | StoreError (code : nat)   (* the error object of a Supabase response *)
  | MissingIngestEnv    (* 'Missing BOLT_INGEST_URL or INGEST_KEY env vars' *)
  | IngestHttpError (status : nat)   (* 'Bolt ingest failed: HTTP ...' *)
  | FetchError          (* fetch rejected *)
  | FsError.            (* a file-system call threw *)

Inductive Outcome (A : Type) : Type :=
  | Return (a : A)
  | Throw (e : JsError).
Arguments Return {A} a.
Arguments Throw {A} e.

End Js.
Import Js.

(* ================================================================== *)
(** * Data model                                                    *)
(* ================================================================== *)

(** The object built per anchor inside [page.evaluate]:
    [{ title, href, location, category, team }]. *)
Record RawJob : Type := mkRawJob {
  raw_title : jsstr;
  raw_href : jsstr;
  raw_location : jsstr;
  raw_category : jsstr;
  raw_team : jsstr
}.

(** An element of [payload.jobs]. *)
Record Job : Type := mkJob {
  title : jsstr;
  location : jsstr;
  country : jsstr;
  category : jsstr;
  team : jsstr;
  href : jsstr
}.

(** The snapshot: [{ scraped_at, source, count, jobs }]. Timestamps are
    instants (milliseconds since the epoch); [toISOString] and the store's
    timestamp column keep them exactly. *)
Record Payload : Type := mkPayload {
  scraped_at : Z;
  source : jsstr;
  count : nat;
  jobs : list Job
}.

(* ================================================================== *)
(** * The browser, as the scripts observe it                        *)
(* ================================================================== *)

Module Browser.

(** What [page.evaluate] reads from one [a[href*="/job/"]] element. *)
Record Anchor : Type := mkAnchor {
  a_href : jsstr;                  (* a.href *)
  a_attr_href : jsval;             (* a.getAttribute('href') *)
  a_textContent : jsval;           (* a.textContent *)
  card_location : jsval;  (* card?.querySelector(location)?.textContent *)
  card_category : jsval;  (* card?.querySelector(category)?.textContent *)
  card_team : jsval       (* card?.querySelector(team)?.textContent *)
}.

(** What one page load shows. *)
Record PageObs : Type := mkPageObs {
  nav_ok : bool;      (* page.goto resolved within its timeout *)
  consent : option bool;  (* a consent button, and whether its click resolved *)
  idle_ok : bool;     (* 'networkidle' was reached within the timeout *)
  mounted : bool;     (* a job link appeared within the content-visible wait *)
  anchors : list Anchor   (* document.querySelectorAll('a[href*="/job/"]') *)
}.

(** The URL handed to [scrapePage]. *)
Inductive Url : Type :=
  | BaseUrl                  (* BASE_URL *)
  | FromUrl (offset : nat)   (* ...search-results?from=<offset>&s=1 *)
  | CurrentUrl.              (* page.url() *)

(** The crawl target: what the [n]-th page load of the run (from 0) shows
    when it asks for [u]. *)
Definition Site : Type := nat -> Url -> PageObs.

(** The state of the "next" control before the [n]-th load:
    [(await next.count()) > 0] and [await next.isEnabled()] ([None] when
    the latter rejects). *)
Record NextControl : Type := mkNextControl {
  next_count : nat;
  next_isEnabled : option bool
}.

End Browser.
Import Browser.

(* ================================================================== *)
(** * The Supabase table [jobs]                                     *)
(* ================================================================== *)

Module Supabase.

(** A persisted row; the column [url] is the key of the table. *)
Record PersistedJob : Type := mkPersisted {
  p_title : jsstr;
  p_location : jsstr;
  p_description : jsstr;
  p_is_active : bool;
  p_updated_at : Z
}.

Abbreviation Store := (gmap (list N) PersistedJob).

(** An object handed to [upsert]. *)
Record Row : Type := mkRow {
  r_title : jsstr;
  r_location : jsstr;
  r_description : jsstr;
  r_url : jsstr;
  r_is_active : bool;
  r_updated_at : Z
}.

(** The two requests the scripts issue:
    [.upsert(rows, { onConflict: 'url', ignoreDuplicates: false })] and
    [.update({ is_active: false }).eq('is_active', true)], the latter with
    or without [.lt('updated_at', t)]. *)
Inductive Request : Type :=
  | Upsert (rows : list Row)
  | Deactivate (before : option Z).

Definition persisted_of (r : Row) : PersistedJob :=
  mkPersisted (r_title r) (r_location r) (r_description r)
              (r_is_active r) (r_updated_at r).

Definition upsert_row (db : Store) (r : Row) : Store :=
  <[r_url r := persisted_of r]> db.

Definition selected (before : option Z) (p : PersistedJob) : bool :=
  p_is_active p &&
  match before with
  | Some t => (p_updated_at p <? t)%Z
  | None => true
  end.

Definition deactivate_row (before : option Z) (p : PersistedJob) : PersistedJob :=
  if selected before p
  then mkPersisted (p_title p) (p_location p) (p_description p)
                   false (p_updated_at p)
  else p.

(** The effect of a request that succeeds. *)
Definition apply (rq : Request) (db : Store) : Store :=
  match rq with
  | Upsert rows => foldl upsert_row db rows
  | Deactivate before => deactivate_row before <$> db
  end.

(** The store together with the requests it has received, oldest first. *)
Record Backend : Type := mkBackend {
  db : Store;
  received : list Request
}.

(** Which requests of a run fail: the [k]-th request (from 0) answers with
    the error [faults k], if any. *)
Definition Faults : Type := nat -> option JsError.

(** One awaited request: the response's [error] field and the backend
    afterwards. A failed request changes no row. *)
Definition send (faults : Faults) (rq : Request) (b : Backend)
  : option JsError * Backend :=
  match faults (length (received b)) with
  | Some e => (Some e, mkBackend (db b) (received b ++ [rq]))
  | None => (None, mkBackend (apply rq (db b)) (received b ++ [rq]))
  end.

End Supabase.
Import Supabase.

(** Lines the scripts print when pagination stops. *)
Inductive LogLine : Type :=
  | OffsetRepeated    (* 'Offset repeated — stopping.' *)
  | NoJobsOnPage      (* 'No jobs on this page — stopping.' *)
  | ShortPage         (* 'Last page reached (short page).' *)
  | NoJobsFirstPage   (* 'No jobs on first page (Next mode).' *)
  | NoNextButton      (* 'No Next button — last page reached.' *)
  | NoNewJobs.        (* 'No new jobs detected — stopping.' *)

(* ================================================================== *)
(** * [src/index.js]                                                *)
(* ================================================================== *)

Module IndexJs.

Definition BASE_URL : jsstr :=
  js "https://jobs.ardaghgroup.com/global/en/search-results?s=1".
Definition PAGE_SIZE : nat := 10.

(** The variables of [process.env] the script reads. *)
Record Env : Type := mkEnv {
  VITE_SUPABASE_URL : jsval;
  VITE_SUPABASE_ANON_KEY : jsval
}.

Definition supabaseUrl (env : Env) : jsval := VITE_SUPABASE_URL env.
Definition supabaseKey (env : Env) : jsval := VITE_SUPABASE_ANON_KEY env.

Definition normaliseText (s : jsval) : jsstr :=
  trim (replace_ws (or_empty s)).

Definition extractCountry (location : jsval) : jsstr :=
  let text := normaliseText location in
  let parts := trim <$> split COMMA text in
  if decide (0 < length parts) then default [] (last parts) else [].

(** The body of the [for (const a of cards)] loop in [page.evaluate]. *)
Definition evaluate_anchor (map : JsMap RawJob) (a : Anchor) : JsMap RawJob :=
  let href := a_href a in
  let title := trim <$> a_textContent a in
  let location := or_empty (trim <$> card_location a) in
  let category := or_empty (trim <$> card_category a) in
  let team := or_empty (trim <$> card_team a) in
  match title with
  | Some title =>
      if nonempty href && nonempty title
      then map_set href (mkRawJob title href location category team) map
      else map
  | None => map
  end.

Definition scrapePage (obs : PageObs) : Outcome (list RawJob) :=
  if negb (nav_ok obs) then Throw NavigationError          (* page.goto *)
  else if negb (idle_ok obs) then Throw TimeoutError       (* waitForLoadState *)
  else if negb (mounted obs) then Throw TimeoutError       (* waitForSelector *)
  else Return (map_values (foldl evaluate_anchor [] (anchors obs))).

(** The state of the crawl: [allJobsMap] and the page loads made so far. *)
Record Crawl : Type := mkCrawl {
  allJobsMap : JsMap RawJob;
  visited : list Url
}.

(** [jobs.forEach(j => allJobsMap.set(j.href, j))] *)
Definition merge (m : JsMap RawJob) (jobs : list RawJob) : JsMap RawJob :=
  foldl (fun m j => map_set (raw_href j) j m) m jobs.

(** The [while (hasMore)] loop. It has no bound of its own: [None] is a
    run still looping after [fuel] page loads. *)
Fixpoint crawl_loop (fuel : nat) (site : Site) (pageOffset : nat) (c : Crawl)
  : option (Outcome unit * Crawl) :=
  match fuel with
  | O => None
  | S fuel' =>
      let url := if decide (pageOffset = 0) then BaseUrl else FromUrl pageOffset in
      let c1 := mkCrawl (allJobsMap c) (visited c ++ [url]) in
      match scrapePage (site (length (visited c)) url) with
      | Throw e => Some (Throw e, c1)
      | Return jobs =>
          if decide (length jobs = 0) then Some (Return tt, c1)
          else
            let c2 := mkCrawl (merge (allJobsMap c1) jobs) (visited c1) in
            let pageOffset' := pageOffset + PAGE_SIZE in
            if decide (length jobs < PAGE_SIZE) then Some (Return tt, c2)
            else crawl_loop fuel' site pageOffset' c2
      end
  end.

(** The object literal inside [allJobs.map]. *)
Definition to_job (j : RawJob) : Job :=
  let location := normaliseText (Some (raw_location j)) in
  {| title := normaliseText (Some (raw_title j));
     location := location;
     country := extractCountry (Some location);
     category := normaliseText (Some (raw_category j));
     team := normaliseText (Some (raw_team j));
     href := raw_href j |}.

Definition build_payload (now : Z) (m : JsMap RawJob) : Payload :=
  let allJobs := map_values m in
  {| scraped_at := now;
     source := BASE_URL;
     count := length allJobs;
     jobs := to_job <$> allJobs |}.

(** [now] is the clock when the payload is assembled. *)
Definition scrapeJobs (fuel : nat) (site : Site) (now : Z)
  : option (Outcome Payload * Crawl) :=
  match crawl_loop fuel site 0 (mkCrawl [] []) with
  | None => None
  | Some (Throw e, c) => Some (Throw e, c)
  | Some (Return _, c) => Some (Return (build_payload now (allJobsMap c)), c)
  end.

(** The row of one [upsert]; [at_] is the clock at that call. *)
Definition row_of (at_ : Z) (job : Job) : Row :=
  {| r_title := title job;
     r_location := location job;
     r_description := trim (template_sp (category job) (team job));
     r_url := href job;
     r_is_active := true;
     r_updated_at := at_ |}.

(** [clock k] is the clock at the upsert of the [k]-th job. No response is
    inspected, so the function always completes normally. *)
Definition updateDatabase (faults : Faults) (clock : nat -> Z)
    (payload : Payload) (b : Backend) : Outcome unit * Backend :=
  let b1 := (send faults (Deactivate None) b).2 in
  let rows := imap (fun k job => row_of (clock k) job) (jobs payload) in
  let b2 := foldl (fun b row => (send faults (Upsert [row]) b).2) b1 rows in
  (Return tt, b2).

(** What a run of the process leaves behind. *)
Record Run : Type := mkRun {
  exit_code : nat;
  crawl : Crawl;
  backend : Backend
}.

Definition main (fuel : nat) (site : Site) (now : Z) (clock : nat -> Z)
    (faults : Faults) (b : Backend) : option Run :=
  match scrapeJobs fuel site now with
  | None => None
  | Some (Throw _, c) => Some (mkRun 1 c b)
  | Some (Return payload, c) =>
      match updateDatabase faults clock payload b with
      | (Throw _, b') => Some (mkRun 1 c b')
      | (Return _, b') => Some (mkRun 0 c b')
      end
  end.

(** The module from its first statement: the credentials check, then
    [main()]. *)
Definition program (env : Env) (fuel : nat) (site : Site) (now : Z)
    (clock : nat -> Z) (faults : Faults) (b : Backend) : option Run :=
  if negb (truthy (supabaseUrl env)) || negb (truthy (supabaseKey env))
  then Some (mkRun 1 (mkCrawl [] []) b)
  else main fuel site now clock faults b.

End IndexJs.

(* ================================================================== *)
(** * [src/unnamed/part_000]                                        *)
(* ================================================================== *)

Module Part000.

Definition BASE_URL : jsstr :=
  js "https://jobs.ardaghgroup.com/global/en/search-results?s=1".
Definition PAGE_SIZE : nat := 10.
Definition MAX_PAGES : nat := 60.
Definition CHUNK : nat := 500.

Record Env : Type := mkEnv {
  VITE_SUPABASE_URL : jsval;
  SUPABASE_URL : jsval;
  VITE_SUPABASE_ANON_KEY : jsval;
  SUPABASE_SERVICE_ROLE : jsval;
  SUPABASE_KEY : jsval
}.

Definition supabaseUrl (env : Env) : jsval :=
  or_else (VITE_SUPABASE_URL env) (SUPABASE_URL env).
Definition supabaseKey (env : Env) : jsval :=
  or_else (or_else (VITE_SUPABASE_ANON_KEY env) (SUPABASE_SERVICE_ROLE env))
          (SUPABASE_KEY env).

Definition norm (s : jsval) : jsstr := trim (replace_ws (or_empty s)).

Definition extractCountry (location : jsval) : jsstr :=
  let parts :=
    filter (fun p => p ≠ []) (trim <$> split COMMA (norm location)) in
  if decide (length parts = 0) then [] else default [] (last parts).

(** Best effort: a click that fails is swallowed. *)
Definition acceptCookies (obs : PageObs) : Outcome unit :=
  match consent obs with
  | Some _clicked => Return tt
  | None => Return tt
  end.

(** [card?.querySelector(q)?.textContent?.trim() || ''] *)
Definition pick (text : jsval) : jsstr := or_empty (trim <$> text).

Definition evaluate_anchor (map : JsMap RawJob) (a : Anchor) : JsMap RawJob :=
  let href := a_href a in
  let title := trim <$> a_textContent a in
  let location := pick (card_location a) in
  let category := pick (card_category a) in
  let team := pick (card_team a) in
  match title with
  | Some title =>
      if nonempty href && nonempty title
      then map_set href (mkRawJob title href location category team) map
      else map
  | None => map
  end.

Definition scrapePage (obs : PageObs) : Outcome (list RawJob) :=
  if negb (nav_ok obs) then Throw NavigationError          (* page.goto *)
  else
    match acceptCookies obs with
    | Throw e => Throw e
    | Return _ =>
        (* waitForLoadState('networkidle').catch(()=>{}) *)
        let mounted := mounted obs in
        if negb mounted then Return []
        else Return (map_values (foldl evaluate_anchor [] (anchors obs)))
    end.

(** The state of the crawl: the two collections of the script, and what
    it has done so far (loop bodies entered, page loads, stop lines). *)
Record Crawl : Type := mkCrawl {
  allJobsMap : JsMap RawJob;
  seenOffsets : gset nat;
  iterations : nat;
  visited : list Url;
  console : list LogLine
}.

Definition merge (m : JsMap RawJob) (jobs : list RawJob) : JsMap RawJob :=
  foldl (fun m j => map_set (raw_href j) j m) m jobs.

(** The [for (let pageIndex = 0; pageIndex < MAX_PAGES; pageIndex++)]
    loop, from the test of its condition at [pageIndex]. *)
Equations crawl_loop (site : Site) (pageIndex : nat) (c : Crawl)
  : Outcome unit * Crawl by wf (MAX_PAGES - pageIndex) lt :=
crawl_loop site pageIndex c with decide (pageIndex < MAX_PAGES) := {
  | right _ => (Return tt, c)
  | left _ =>
      let n := S (iterations c) in
      let offset := pageIndex * PAGE_SIZE in
      if decide (offset ∈ seenOffsets c)
      then (Return tt, mkCrawl (allJobsMap c) (seenOffsets c) n (visited c)
                               (console c ++ [OffsetRepeated]))
      else
        let seen := {[offset]} ∪ seenOffsets c in
        let url := if decide (offset = 0) then BaseUrl else FromUrl offset in
        let loads := visited c ++ [url] in
        match scrapePage (site (length (visited c)) url) with
        | Throw e => (Throw e, mkCrawl (allJobsMap c) seen n loads (console c))
        | Return jobs =>
            if decide (length jobs = 0)
            then (Return tt, mkCrawl (allJobsMap c) seen n loads
                                     (console c ++ [NoJobsOnPage]))
            else
              let m := merge (allJobsMap c) jobs in
              if decide (length jobs < PAGE_SIZE)
              then (Return tt, mkCrawl m seen n loads (console c ++ [ShortPage]))
              else crawl_loop site (S pageIndex) (mkCrawl m seen n loads (console c))
        end }.
Next Obligation. unfold MAX_PAGES in *. lia. Qed.

Definition to_job (j : RawJob) : Job :=
  let location := norm (Some (raw_location j)) in
  {| title := norm (Some (raw_title j));
     location := location;
     country := extractCountry (Some location);
     category := norm (Some (raw_category j));
     team := norm (Some (raw_team j));
     href := raw_href j |}.

Definition build_payload (now : Z) (m : JsMap RawJob) : Payload :=
  let allJobs := map_values m in
  {| scraped_at := now;
     source := BASE_URL;
     count := length allJobs;
     jobs := to_job <$> allJobs |}.

Definition scrapeJobs (site : Site) (now : Z) : Outcome Payload * Crawl :=
  match crawl_loop site 0 (mkCrawl [] ∅ 0 [] []) with
  | (Throw e, c) => (Throw e, c)
  | (Return _, c) => (Return (build_payload now (allJobsMap c)), c)
  end.

(** The object literal inside [payload.jobs.map]. *)
Definition row_of (seenAt : Z) (j : Job) : Row :=
  {| r_title := title j;
     r_location := location j;
     r_description := trim (template_sp (category j) (team j));
     r_url := href j;
     r_is_active := true;
     r_updated_at := seenAt |}.

(** The [for (let i = 0; i < rows.length; i += CHUNK)] loop, from the test
    of its condition at [i]. *)
Equations upsert_chunks (faults : Faults) (rows : list Row) (i : nat)
    (b : Backend) : Outcome unit * Backend by wf (length rows - i) lt :=
upsert_chunks faults rows i b with decide (i < length rows) := {
  | right _ => (Return tt, b)
  | left _ =>
      let slice := take CHUNK (drop i rows) in
      match send faults (Upsert slice) b with
      | (Some error, b') => (Throw error, b')
      | (None, b') => upsert_chunks faults rows (i + CHUNK) b'
      end }.
Next Obligation. unfold CHUNK. lia. Qed.

Definition updateDatabase (faults : Faults) (payload : Payload) (b : Backend)
  : Outcome unit * Backend :=
  let seenAt := scraped_at payload in
  let rows := row_of seenAt <$> jobs payload in
  match upsert_chunks faults rows 0 b with
  | (Throw e, b1) => (Throw e, b1)
  | (Return _, b1) =>
      match send faults (Deactivate (Some seenAt)) b1 with
      | (Some deactErr, b2) => (Throw deactErr, b2)
      | (None, b2) => (Return tt, b2)
      end
  end.

Record Run : Type := mkRun {
  exit_code : nat;
  crawl : Crawl;
  backend : Backend
}.

Definition main (site : Site) (now : Z) (faults : Faults) (b : Backend) : Run :=
  match scrapeJobs site now with
  | (Throw _, c) => mkRun 1 c b
  | (Return payload, c) =>
      match updateDatabase faults payload b with
      | (Throw _, b') => mkRun 1 c b'
      | (Return _, b') => mkRun 0 c b'
      end
  end.

Definition program (env : Env) (site : Site) (now : Z) (faults : Faults)
    (b : Backend) : Run :=
  if negb (truthy (supabaseUrl env)) || negb (truthy (supabaseKey env))
  then mkRun 1 (mkCrawl [] ∅ 0 [] []) b
  else main site now faults b.

End Part000.

(* ================================================================== *)
(** * [src/unnamed/part_001]                                        *)
(* ================================================================== *)

Module Part001.

(** The module-level constants, after the defaults of the script have
    been applied to [process.env]; the numeric ones are naturals. *)
Record Config : Type := mkConfig {
  BASE_URL : jsstr;
  PAGE_SIZE : nat;
  MAX_PAGES : nat;
  PAGINATION_MODE : jsstr;   (* lower-cased *)
  TENANT_ID : jsstr;
  BOLT_INGEST_URL : jsval;
  INGEST_KEY : jsval;
  SUPABASE_ANON_KEY : jsval
}.

Definition norm (s : jsval) : jsstr := trim (replace_ws (or_empty s)).

Definition extractCountry (location : jsval) : jsstr :=
  let parts :=
    filter (fun p => p ≠ []) (trim <$> split COMMA (norm location)) in
  if decide (length parts = 0) then [] else default [] (last parts).

Definition acceptCookies (obs : PageObs) : Outcome unit :=
  match consent obs with
  | Some _clicked => Return tt
  | None => Return tt
  end.

Definition pick (text : jsval) : jsstr := or_empty (trim <$> text).

Definition evaluate_anchor (map : JsMap RawJob) (a : Anchor) : JsMap RawJob :=
  let href := or_else (Some (a_href a)) (a_attr_href a) in
  let title := trim <$> a_textContent a in
  let location := pick (card_location a) in
  let category := pick (card_category a) in
  let team := pick (card_team a) in
  match href, title with
  | Some href, Some title =>
      if nonempty href && nonempty title
      then map_set href (mkRawJob title href location category team) map
      else map
  | _, _ => map
  end.

Definition scrapePage (obs : PageObs) : Outcome (list RawJob) :=
  if negb (nav_ok obs) then Throw NavigationError          (* page.goto *)
  else
    match acceptCookies obs with
    | Throw e => Throw e
    | Return _ =>
        (* waitForLoadState('networkidle').catch(() => {}) *)
        let mounted := mounted obs in
        if negb mounted then Return []
        else Return (map_values (foldl evaluate_anchor [] (anchors obs)))
    end.

Record Crawl : Type := mkCrawl {
  allJobsMap : JsMap RawJob;
  iterations : nat;
  visited : list Url;
  console : list LogLine
}.

Definition merge (m : JsMap RawJob) (jobs : list RawJob) : JsMap RawJob :=
  foldl (fun m j => map_set (raw_href j) j m) m jobs.

(** The [for (let p = 2; p <= MAX_PAGES; p++)] loop of the 'next' mode,
    from the test of its condition at [p]. [nexts p] is the "next" control
    as the iteration [p] finds it. *)
Equations next_loop (cfg : Config) (site : Site) (nexts : nat -> NextControl)
    (p : nat) (c : Crawl) : Outcome unit * Crawl
  by wf (S (MAX_PAGES cfg) - p) lt :=
next_loop cfg site nexts p c with decide (p <= MAX_PAGES cfg) := {
  | right _ => (Return tt, c)
  | left _ =>
      let n := S (iterations c) in
      let next := nexts p in
      let exists_ := bool_decide (0 < next_count next) in
      let enabled := exists_ && default false (next_isEnabled next) in
      if negb exists_ || negb enabled
      then (Return tt, mkCrawl (allJobsMap c) n (visited c)
                               (console c ++ [NoNextButton]))
      else
        (* next.click() and the wait for 'networkidle', both best effort *)
        let loads := visited c ++ [CurrentUrl] in
        match scrapePage (site (length (visited c)) CurrentUrl) with
        | Throw e => (Throw e, mkCrawl (allJobsMap c) n loads (console c))
        | Return more =>
            if decide (length more = 0)
            then (Return tt, mkCrawl (allJobsMap c) n loads
                                     (console c ++ [NoJobsOnPage]))
            else
              let before := map_size (allJobsMap c) in
              let m := merge (allJobsMap c) more in
              if decide (map_size m = before)
              then (Return tt, mkCrawl m n loads (console c ++ [NoNewJobs]))
              else next_loop cfg site nexts (S p) (mkCrawl m n loads (console c))
        end }.
Next Obligation. lia. Qed.

(** The branch [PAGINATION_MODE === 'next']. *)
Definition crawl_next (cfg : Config) (site : Site) (nexts : nat -> NextControl)
  : Outcome unit * Crawl :=
  match scrapePage (site 0 BaseUrl) with
  | Throw e => (Throw e, mkCrawl [] 0 [BaseUrl] [])
  | Return jobs =>
      let out := if decide (length jobs = 0) then [NoJobsFirstPage] else [] in
      next_loop cfg site nexts 2 (mkCrawl (merge [] jobs) 0 [BaseUrl] out)
  end.

(** The offset loop of the [else] branch. *)
Equations crawl_offset (cfg : Config) (site : Site) (pageIndex : nat)
    (c : Crawl) : Outcome unit * Crawl by wf (MAX_PAGES cfg - pageIndex) lt :=
crawl_offset cfg site pageIndex c with decide (pageIndex < MAX_PAGES cfg) := {
  | right _ => (Return tt, c)
  | left _ =>
      let n := S (iterations c) in
      let offset := pageIndex * PAGE_SIZE cfg in
      let url := if decide (offset = 0) then BaseUrl else FromUrl offset in
      let loads := visited c ++ [url] in
      match scrapePage (site (length (visited c)) url) with
      | Throw e => (Throw e, mkCrawl (allJobsMap c) n loads (console c))
      | Return jobs =>
          if decide (length jobs = 0)
          then (Return tt, mkCrawl (allJobsMap c) n loads
                                   (console c ++ [NoJobsOnPage]))
          else
            let m := merge (allJobsMap c) jobs in
            if decide (length jobs < PAGE_SIZE cfg)
            then (Return tt, mkCrawl m n loads (console c ++ [ShortPage]))
            else crawl_offset cfg site (S pageIndex) (mkCrawl m n loads (console c))
      end }.
Next Obligation. lia. Qed.

Definition to_job (j : RawJob) : Job :=
  let location := norm (Some (raw_location j)) in
  {| title := norm (Some (raw_title j));
     location := location;
     country := extractCountry (Some location);
     category := norm (Some (raw_category j));
     team := norm (Some (raw_team j));
     href := raw_href j |}.

Definition build_payload (cfg : Config) (now : Z) (m : JsMap RawJob) : Payload :=
  let allJobs := to_job <$> map_values m in
  {| scraped_at := now;
     source := BASE_URL cfg;
     count := length allJobs;
     jobs := allJobs |}.

Definition scrapeAll (cfg : Config) (site : Site) (nexts : nat -> NextControl)
    (now : Z) : Outcome Payload * Crawl :=
  let crawled :=
    if decide (PAGINATION_MODE cfg = js "next")
    then crawl_next cfg site nexts
    else crawl_offset cfg site 0 (mkCrawl [] 0 [] []) in
  match crawled with
  | (Throw e, c) => (Throw e, c)
  | (Return _, c) => (Return (build_payload cfg now (allJobsMap c)), c)
  end.

(** The POST the script sends, and the ingestion endpoint: the status of
    its response, or [None] when [fetch] rejects. *)
Record Post : Type := mkPost {
  post_url : jsstr;
  x_ingest_key : jsstr;
  x_tenant_id : jsstr;
  authorization : jsval;
  body : Payload
}.

Definition Sink : Type := Post -> option nat.

(** What the process has written outside itself. *)
Record Outputs : Type := mkOutputs {
  jobs_json : option Payload;   (* public/jobs.json *)
  posts : list Post
}.

(** [writes_ok] tells whether the file system accepts the write. *)
Definition saveJson (writes_ok : bool) (payload : Payload) (o : Outputs)
  : Outcome unit * Outputs :=
  if writes_ok then (Return tt, mkOutputs (Some payload) (posts o))
  else (Throw FsError, o).

Definition postToBolt (cfg : Config) (sink : Sink) (payload : Payload)
    (o : Outputs) : Outcome unit * Outputs :=
  if negb (truthy (BOLT_INGEST_URL cfg)) || negb (truthy (INGEST_KEY cfg))
  then (Throw MissingIngestEnv, o)
  else
    let auth := SUPABASE_ANON_KEY cfg in
    let rq := mkPost (or_empty (BOLT_INGEST_URL cfg)) (or_empty (INGEST_KEY cfg))
                     (TENANT_ID cfg) (if truthy auth then auth else None)
                     payload in
    let o' := mkOutputs (jobs_json o) (posts o ++ [rq]) in
    match sink rq with
    | None => (Throw FetchError, o')
    | Some status =>
        (* res.ok *)
        if bool_decide (200 <= status <= 299) then (Return tt, o')
        else (Throw (IngestHttpError status), o')
    end.

Record Run : Type := mkRun {
  exit_code : nat;
  crawl : Crawl;
  outputs : Outputs
}.

Definition main (cfg : Config) (site : Site) (nexts : nat -> NextControl)
    (now : Z) (writes_ok : bool) (sink : Sink) : Run :=
  let o := mkOutputs None [] in
  match scrapeAll cfg site nexts now with
  | (Throw _, c) => mkRun 1 c o
  | (Return payload, c) =>
      match saveJson writes_ok payload o with
      | (Throw _, o1) => mkRun 1 c o1
      | (Return _, o1) =>
          match postToBolt cfg sink payload o1 with
          | (Throw _, o2) => mkRun 1 c o2
          | (Return _, o2) => mkRun 0 c o2
          end
      end
  end.

(** The module from its first statement: nothing precedes [main()]. *)
Definition program (cfg : Config) (site : Site) (nexts : nat -> NextControl)
    (now : Z) (writes_ok : bool) (sink : Sink) : Run :=
  main cfg site nexts now writes_ok sink.

End Part001.

(* ================================================================== *)
(** * Specification-side definitions: text                          *)
(* ================================================================== *)

(** The words of a string: its maximal runs of non-whitespace. *)
Fixpoint ws_words (s : jsstr) : list jsstr :=
  match s with
  | [] => []
  | c :: t =>
      if is_ws c then ws_words t
      else match t with
           | [] => [[c]]
           | c' :: _ =>
               if is_ws c' then [c] :: ws_words t
               else match ws_words t with
                    | w :: r => (c :: w) :: r
                    | [] => [[c]]
                    end
           end
  end.

(** Words joined by single spaces. *)
Fixpoint unwords (ws : list jsstr) : jsstr :=
  match ws with
  | [] => []
  | w :: r =>
      match r with
      | [] => w
      | _ :: _ => w ++ SP :: unwords r
      end
  end.

(** Whitespace normalisation as the specification words it: runs of
    whitespace collapsed to one space, none at either end. *)
Definition normalize_spec (s : jsval) : jsstr := unwords (ws_words (or_empty s)).

(** A word without whitespace. *)
Definition ws_free (w : list N) : Prop := Forall (fun c => is_ws c = false) w.

(** The last segment that is non-empty once trimmed, [''] if there is
    none. *)
Fixpoint last_nonempty_segment (segs : list jsstr) : jsstr :=
  match segs with
  | [] => []
  | s :: r =>
      match last_nonempty_segment r with
      | [] => trim s
      | x => x
      end
  end.

Definition extractCountry_spec (location : jsval) : jsstr :=
  last_nonempty_segment (split COMMA (normalize_spec location)).

(* ================================================================== *)
(** * Specification-side definitions: aggregation                   *)
(* ================================================================== *)

(** The keys of a [Map], in iteration order. *)
Definition map_keys {V : Type} (m : JsMap V) : list (list N) := m.*1.

(** [jobs.forEach(j => allJobsMap.set(j.href, j))], as every script
    writes it. *)
Definition merge_jobs (m : JsMap RawJob) (jobs : list RawJob) : JsMap RawJob :=
  foldl (fun m j => map_set (raw_href j) j m) m jobs.

(** Every entry of [allJobsMap] is stored under its own link. *)
Definition keyed (m : JsMap RawJob) : Prop :=
  Forall (fun e => raw_href e.2 = e.1) m.

(** The keys of a sequence in the order of their first occurrence: a scan
    from the left that keeps a key when it has not been [seen] before. *)
Fixpoint unseen (seen ks : list (list N)) : list (list N) :=
  match ks with
  | [] => []
  | k :: r =>
      if decide (k ∈ seen) then unseen seen r
      else k :: unseen (seen ++ [k]) r
  end.

Definition first_sightings (ks : list (list N)) : list (list N) := unseen [] ks.

(** The last element of a batch sequence that carries the link [k]. *)
Definition last_with_link (k : jsstr) (js : list RawJob) : option RawJob :=
  last (filter (fun j => raw_href j = k) js).

(** What the aggregator promises of the snapshot [p] made from the
    records [all], merged in arrival order: links are unique, they come in
    the order of their first sighting, each record is the normalised last
    write for its link, and [count] is the number of records. *)
Definition snapshot_of (to_job : RawJob -> Job) (all : list RawJob)
    (p : Payload) : Prop :=
  NoDup (href <$> jobs p)
  /\ href <$> jobs p = first_sightings (raw_href <$> all)
  /\ (forall job, job ∈ jobs p ->
        exists raw, last_with_link (href job) all = Some raw /\ job = to_job raw)
  /\ count p = length (jobs p).



(** The batch a call of [scrapePage] hands to its caller; a call that
    threw hands over nothing. *)
Definition batch_of (r : Outcome (list RawJob)) : list RawJob :=
  match r with
  | Return jobs => jobs
  | Throw _ => []
  end.

(** The batches of the pages a crawl has loaded, in arrival order: the
    [i]-th load asked for the [i]-th of [urls]. *)
Definition page_batches (scrape : PageObs -> Outcome (list RawJob))
    (site : Site) (urls : list Url) : list (list RawJob) :=
  imap (fun i u => batch_of (scrape (site i u))) urls.

(** [m] is the merge, in arrival order, of the batches of [urls]. *)
Definition aggregates (scrape : PageObs -> Outcome (list RawJob))
    (site : Site) (m : JsMap RawJob) (urls : list Url) : Prop :=
  m = merge_jobs [] (concat (page_batches scrape site urls)).

(* ================================================================== *)
(** * Specification-side definitions: pagination                    *)
(* ================================================================== *)

(** The URL of the [i]-th page of an offset crawl. *)
Definition offset_url (page_size i : nat) : Url :=
  if decide (i * page_size = 0) then BaseUrl else FromUrl (i * page_size).

(** The [i]-th page of an offset crawl came back with a batch that is
    neither empty nor short. *)
Definition full_batch (scrape : PageObs -> Outcome (list RawJob))
    (page_size : nat) (site : Site) (i : nat) : Prop :=
  exists jobs, scrape (site i (offset_url page_size i)) = Return jobs
               /\ jobs ≠ [] /\ page_size <= length jobs.

(** The line an offset crawl prints for the batch that stops it, the
    empty batch first. *)
Definition stop_line (page_size : nat) (r : Outcome (list RawJob)) : list LogLine :=
  match r with
  | Throw _ => []
  | Return jobs =>
      if decide (length jobs = 0) then [NoJobsOnPage]
      else if decide (length jobs < page_size) then [ShortPage]
      else []
  end.

(** The state of the offset loop of part_000 when it tests its condition
    at [i]: [i] full pages loaded and merged, their offsets remembered,
    nothing printed. *)
Definition at_page (site : Site) (i : nat) (c : Part000.Crawl) : Prop :=
  Part000.iterations c = i
  /\ Part000.visited c = offset_url Part000.PAGE_SIZE <$> seq 0 i
  /\ (forall o, o ∈ Part000.seenOffsets c -> o < i * Part000.PAGE_SIZE)
  /\ aggregates Part000.scrapePage site (Part000.allJobsMap c) (Part000.visited c)
  /\ (forall j, j < i -> full_batch Part000.scrapePage Part000.PAGE_SIZE site j)
  /\ Part000.console c = [].

(** The state it ends in: after [n] iterations it has loaded and merged
    the first [n] pages, all of them full except possibly the last; it
    stopped at the cap, or at a last page that was not full, with the line
    and the completion that page calls for. *)
Definition stopped (site : Site) (res : Outcome unit * Part000.Crawl) : Prop :=
  let c := res.2 in
  let full := full_batch Part000.scrapePage Part000.PAGE_SIZE site in
  let page j := Part000.scrapePage (site j (offset_url Part000.PAGE_SIZE j)) in
  exists n,
    n <= Part000.MAX_PAGES
    /\ Part000.iterations c = n
    /\ Part000.visited c = offset_url Part000.PAGE_SIZE <$> seq 0 n
    /\ aggregates Part000.scrapePage site (Part000.allJobsMap c) (Part000.visited c)
    /\ (forall j, S j < n -> full j)
    /\ ((n = Part000.MAX_PAGES /\ (forall j, j < n -> full j)
         /\ Part000.console c = [] /\ res.1 = Return tt)
        \/ (exists j, n = S j /\ ¬ full j
               /\ Part000.console c = stop_line Part000.PAGE_SIZE (page j)
               /\ res.1 = match page j with
                          | Throw e => Throw e
                          | Return _ => Return tt
                          end))
    /\ OffsetRepeated ∉ Part000.console c.

(** What the loops of part_001 keep, whatever way they end: the map is
    the merge of the batches of the pages loaded. *)
Definition crawl_inv (site : Site) (c : Part001.Crawl) : Prop :=
  aggregates Part001.scrapePage site (Part001.allJobsMap c) (Part001.visited c).

(** The "next" control is there and enabled. *)
Definition next_usable (nc : NextControl) : Prop :=
  0 < next_count nc /\ next_isEnabled nc = Some true.

(* ================================================================== *)
(** * Specification-side definitions: reconciliation                *)
(* ================================================================== *)

Definition is_upsert (rq : Request) : Prop :=
  match rq with
  | Upsert _ => True
  | Deactivate _ => False
  end.

(** The watermarks of the deactivations among some requests ([None] for
    a deactivation without one). *)
Definition deactivations (l : list Request) : list (option Z) :=
  omap (fun rq => match rq with
                  | Deactivate before => Some before
                  | Upsert _ => None
                  end) l.

(** A row that a run with watermark [T] has refreshed. *)
Definition refreshed (T : Z) (p : PersistedJob) : Prop :=
  p_is_active p = true /\ p_updated_at p = T.

(** The row [p], soft-deactivated. *)
Definition inactive (p : PersistedJob) : PersistedJob :=
  mkPersisted (p_title p) (p_location p) (p_description p) false (p_updated_at p).

(** What the chunk loop has done when it ends: it sent upserts only; all
    of them succeeded and wrote every row from [i] on, or the last one
    failed, with the error the loop throws. *)
Definition chunks_post (faults : Faults) (rows : list Row) (i : nat)
    (b : Backend) (res : Outcome unit * Backend) : Prop :=
  exists reqs,
    received res.2 = received b ++ reqs
    /\ Forall is_upsert reqs
    /\ match res.1 with
       | Return _ =>
           (forall j, j < length reqs -> faults (length (received b) + j) = None)
           /\ db res.2 = foldl upsert_row (db b) (drop i rows)
       | Throw e =>
           exists j, length reqs = S j
             /\ faults (length (received b) + j) = Some e
             /\ (forall j', j' < j -> faults (length (received b) + j') = None)
       end.

(* ================================================================== *)
(** * Concrete sites, stores and configurations                     *)
(* ================================================================== *)

Module Examples.

(** An anchor with a link and a title, in a card without further fields. *)
Definition anchor (link text : string) : Anchor :=
  mkAnchor (js link) (Some (js link)) (Some (js text)) None None None.

Definition page_of (l : list Anchor) : PageObs :=
  mkPageObs true None true true l.


(** A results page with ten job links. *)
Definition ten_anchors : list Anchor :=
  [ anchor "https://jobs.example/job/0" "Job 0";
    anchor "https://jobs.example/job/1" "Job 1";
    anchor "https://jobs.example/job/2" "Job 2";
    anchor "https://jobs.example/job/3" "Job 3";
    anchor "https://jobs.example/job/4" "Job 4";
    anchor "https://jobs.example/job/5" "Job 5";
    anchor "https://jobs.example/job/6" "Job 6";
    anchor "https://jobs.example/job/7" "Job 7";
    anchor "https://jobs.example/job/8" "Job 8";
    anchor "https://jobs.example/job/9" "Job 9" ].

Definition full_page : PageObs := page_of ten_anchors.

(** A site that answers every request with the same full page (it ignores
    the [from] parameter). *)
Definition same_page_site : Site := fun _ _ => full_page.

(** A page on which no job link appears within the content-visible wait. *)
Definition blank_page : PageObs := mkPageObs true None true false [].

Definition blank_site : Site := fun _ _ => blank_page.

(** A site with one short page of two jobs. *)
Definition two_jobs_page : PageObs :=
  page_of [ anchor "https://jobs.example/job/a" "Fitter";
            anchor "https://jobs.example/job/b" "Welder" ].

Definition two_jobs_site : Site := fun _ _ => two_jobs_page.

(** A site of two pages, of ten and of four job links. *)
Definition four_anchors : list Anchor :=
  [ anchor "https://jobs.example/job/10" "Job 10";
    anchor "https://jobs.example/job/11" "Job 11";
    anchor "https://jobs.example/job/12" "Job 12";
    anchor "https://jobs.example/job/13" "Job 13" ].

Definition two_page_site : Site :=
  fun n _ => match n with
             | 0 => full_page
             | 1 => page_of four_anchors
             | _ => blank_page
             end.

(** A "next" control that is always present and enabled, and one that is
    never there. *)
Definition next_enabled : nat -> NextControl := fun _ => mkNextControl 1 (Some true).
Definition next_absent : nat -> NextControl := fun _ => mkNextControl 0 None.

Definition no_faults : Faults := fun _ => None.

(** The request number [k] fails. *)
Definition fault_at (k : nat) : Faults :=
  fun i => if decide (i = k) then Some (StoreError 500) else None.

Definition persisted (text : string) (active : bool) (at_ : Z) : PersistedJob :=
  mkPersisted (js text) (js "Leeds, UK") [] active at_.

(** A table with a stale active row [A], and an active row [X] stamped
    after the watermark [1000] (by a run with a later clock). *)
Definition stale_and_later : Store :=
  <[js "https://jobs.example/job/x" := persisted "X" true 2000]>
  (<[js "https://jobs.example/job/a" := persisted "A" true 100]> ∅).

(** A table with the active rows [A] and [B] of an earlier run. *)
Definition earlier_run : Store :=
  <[js "https://jobs.example/job/b" := persisted "B" true 100]>
  (<[js "https://jobs.example/job/a" := persisted "A" true 100]> ∅).

Definition job_of (link text : string) : Job :=
  mkJob (js text) (js "Leeds, UK") (js "UK") [] [] (js link).

(** The snapshot [{B}] taken at [1000]. *)
Definition snapshot_b : Payload :=
  mkPayload 1000 (js "https://jobs.example/") 1
            [job_of "https://jobs.example/job/b" "B"].

(** The snapshot [{B, C}] taken at [1000]. *)
Definition snapshot_bc : Payload :=
  mkPayload 1000 (js "https://jobs.example/") 2
            [job_of "https://jobs.example/job/b" "B";
             job_of "https://jobs.example/job/c" "C"].

(** The snapshot [{A, B}] taken at [100]. *)
Definition snapshot_ab : Payload :=
  mkPayload 100 (js "https://jobs.example/") 2
            [job_of "https://jobs.example/job/a" "A";
             job_of "https://jobs.example/job/b" "B"].

(** A clock five milliseconds after the snapshot, one more per upsert. *)
Definition later_clock : nat -> Z := fun k => (1005 + Z.of_nat k)%Z.

Definition supabase_env_v1 : IndexJs.Env :=
  IndexJs.mkEnv (Some (js "https://db.example")) (Some (js "anon")).

Definition no_key_env_v1 : IndexJs.Env :=
  IndexJs.mkEnv (Some (js "https://db.example")) None.

Definition no_key_env_v0 : Part000.Env :=
  Part000.mkEnv (Some (js "https://db.example")) None None (Some []) None.

(** The defaults of part_001 with the 'next' mode on and the ingestion
    endpoint configured, and the same without [INGEST_KEY]. *)
Definition next_config (max_pages : nat) : Part001.Config :=
  Part001.mkConfig (js "https://jobs.example/search") 10 max_pages (js "next")
                   (js "default") (Some (js "https://bolt.example/api/ingest-jobs"))
                   (Some (js "secret")) None.

Definition no_ingest_key_config : Part001.Config :=
  Part001.mkConfig (js "https://jobs.example/search") 10 60 (js "offset")
                   (js "default") (Some (js "https://bolt.example/api/ingest-jobs"))
                   None None.

Definition accepting_sink : Part001.Sink := fun _ => Some 200.

End Examples.

(** The ten records of the full example page, and the crawl of part_001
    that has just merged them from its first page. *)
Definition ten_jobs : list RawJob :=
  batch_of (Part001.scrapePage Examples.full_page).

Definition after_first_page : Part001.Crawl :=
  Part001.mkCrawl (Part001.merge [] ten_jobs) 0 [BaseUrl] [].

(** The links of the snapshot a run of [scrapeJobs] of index.js returned. *)
Definition links_v1 (r : option (Outcome Payload * IndexJs.Crawl)) : list (list N) :=
  match r with
  | Some (Return p, _) => href <$> jobs p
  | _ => []
  end.

(* ================================================================== *)
(** * Further specification-side definitions                        *)
(* ================================================================== *)

(** A visible (non-whitespace) code unit. *)
Definition visible (c : N) : Prop := is_ws c = false.

(** The first code unit of a string, if any, is visible. *)
Definition starts_visible (s : list N) : Prop :=
  match s with
  | [] => True
  | c :: _ => is_ws c = false
  end.

(** Whitespace occurs only as single spaces, each followed by a visible
    code unit or by the end of the string. *)
Fixpoint collapsed (s : list N) : Prop :=
  match s with
  | [] => True
  | c :: t => (is_ws c = true -> c = SP /\ starts_visible t) /\ collapsed t
  end.

(** What every segment of a normalised location is once trimmed, and so
    what the country is: collapsed, trimmed, without a comma. *)
Definition country_like (r : list N) : Prop :=
  collapsed r /\ trim r = r /\ COMMA ∉ r.




(** A page that lists the same job twice, under two titles. *)
Definition duplicate_links_page : PageObs :=
  Examples.page_of
    [ Examples.anchor "https://jobs.example/job/a" "Fitter";
      Examples.anchor "https://jobs.example/job/b" "Welder";
      Examples.anchor "https://jobs.example/job/a" "Senior Fitter" ].

(** A site whose first page shows no job and whose later pages are full. *)
Definition late_site : Site :=
  fun n _ => match n with
             | 0 => Examples.blank_page
             | _ => Examples.full_page
             end.

(** The state of the offset loop of part_001 when it tests its condition
    at [i], and the state it ends in (compare [at_page] and [stopped]). *)
Definition at_offset (cfg : Part001.Config) (site : Site) (i : nat)
    (c : Part001.Crawl) : Prop :=
  Part001.iterations c = i
  /\ Part001.visited c = offset_url (Part001.PAGE_SIZE cfg) <$> seq 0 i
  /\ (forall j, j < i ->
        full_batch Part001.scrapePage (Part001.PAGE_SIZE cfg) site j)
  /\ Part001.console c = [].

Definition stopped_offset (cfg : Part001.Config) (site : Site)
    (res : Outcome unit * Part001.Crawl) : Prop :=
  let c := res.2 in
  let size := Part001.PAGE_SIZE cfg in
  let full := full_batch Part001.scrapePage size site in
  let page j := Part001.scrapePage (site j (offset_url size j)) in
  exists n,
    n <= Part001.MAX_PAGES cfg
    /\ Part001.iterations c = n
    /\ Part001.visited c = offset_url size <$> seq 0 n
    /\ (forall j, S j < n -> full j)
    /\ ((n = Part001.MAX_PAGES cfg /\ (forall j, j < n -> full j)
         /\ Part001.console c = [] /\ res.1 = Return tt)
        \/ (exists j, n = S j /\ ¬ full j
               /\ Part001.console c = stop_line size (page j)
               /\ res.1 = match page j with
                          | Throw e => Throw e
                          | Return _ => Return tt
                          end)).

(** A string the normaliser leaves as it is. *)
Definition normalised (s : list N) : Prop := trim (replace_ws s) = s.

(** A record of a snapshot whose text fields are all normalised. *)
Definition normalised_job (job : Job) : Prop :=
  normalised (title job) /\ normalised (location job)
  /\ normalised (category job) /\ normalised (team job)
  /\ country_like (country job).

(** A job with a category and no team, as a snapshot holds it. *)
Definition fitter_job : Job :=
  mkJob (js "Fitter") (js "Leeds, UK") (js "UK") (js "Engineering") []
        (js "https://jobs.example/job/a").

(** The columns of a row other than [is_active]. *)
Definition content (p : PersistedJob) : list N * list N * list N * Z :=
  (p_title p, p_location p, p_description p, p_updated_at p).

(** What a run may do to the table: it deletes no row, and a row whose
    url is not among [urls] keeps its content. *)
Definition kept (urls : list (list N)) (d d' : Store) : Prop :=
  forall url p, d !! url = Some p ->
    exists p', d' !! url = Some p' /\ (url ∉ urls -> content p' = content p).

(** The table holds an active row for [url]. *)
Definition active_in (d : Store) (url : list N) : Prop :=
  exists p, d !! url = Some p /\ p_is_active p = true.

(** The chunks of a run of upserts: none is empty, none exceeds [size],
    and all but the last are full. *)
Definition bounded_chunks (size : nat) (chunks : list (list Row)) : Prop :=
  Forall (fun ch => 0 < length ch <= size) chunks
  /\ (forall j ch, chunks !! j = Some ch -> S j < length chunks ->
        length ch = size).

(** A site whose second page load fails in [page.goto], after a full
    first page. *)
Definition failing_second_page : Site :=
  fun n _ => match n with
             | 0 => Examples.full_page
             | _ => mkPageObs false None true false []
             end.


(** The configuration of part_001 with the offset mode and the ingestion
    endpoint configured. *)
Definition offset_config : Part001.Config :=
  Part001.mkConfig (js "https://jobs.example/search") 10 60 (js "offset")
                   (js "default") (Some (js "https://bolt.example/api/ingest-jobs"))
                   (Some (js "secret")) None.
(* ================================================================== *)
(** * Text normaliser                                               *)
(* ================================================================== *)

Section TextFacts.

#[local] Arguments is_ws : simpl never.

Implicit Types (s t : list N) (c : N).

Lemma is_ws_SP : is_ws SP = true.
Proof. reflexivity. Qed.

Lemma trimEnd_cons_nonws c s :
  is_ws c = false -> trimEnd (c :: s) = c :: trimEnd s.
Proof. intros Hc. simpl. rewrite Hc. destruct (trimEnd s); reflexivity. Qed.

Lemma trimEnd_cons_ws c s :
  is_ws c = true ->
  trimEnd (c :: s) = match trimEnd s with [] => [] | r => c :: r end.
Proof. intros Hc. simpl. rewrite Hc. reflexivity. Qed.

Lemma trimStart_replace_ws_from b s :
  trimStart (replace_ws_from b s) = replace_ws (trimStart s).
Proof.
  revert b. induction s as [|c t IH]; intros b; [reflexivity|].
  simpl. destruct (is_ws c) eqn:Hc.
  - destruct b; simpl; rewrite ?is_ws_SP; apply IH.
  - simpl. rewrite Hc. unfold replace_ws. simpl. rewrite Hc. reflexivity.
Qed.

(** The shape both scripts' normalisers reduce to. *)
Lemma trim_replace_ws s :
  trim (replace_ws s) = trimEnd (replace_ws (trimStart s)).
Proof. unfold trim, replace_ws at 1. rewrite trimStart_replace_ws_from. reflexivity. Qed.

Lemma replace_ws_from_true s :
  replace_ws_from true s = replace_ws (trimStart s).
Proof.
  induction s as [|c t IH]; [reflexivity|].
  simpl. destruct (is_ws c) eqn:Hc; [exact IH|].
  unfold replace_ws. simpl. rewrite Hc. reflexivity.
Qed.

Lemma ws_words_nonws_cons c t :
  is_ws c = false -> exists w r, ws_words (c :: t) = (c :: w) :: r.
Proof.
  intros Hc. simpl. rewrite Hc. destruct t as [|c' t']; [by eexists _, _|].
  destruct (is_ws c'); [by eexists _, _|].
  destruct (ws_words (c' :: t')); by eexists _, _.
Qed.

Lemma ws_words_cons_cons c c' t :
  is_ws c = false -> is_ws c' = false ->
  unwords (ws_words (c :: c' :: t)) = c :: unwords (ws_words (c' :: t)).
Proof.
  intros Hc Hc'.
  destruct (ws_words_nonws_cons c' t Hc') as (w & r & Hw).
  change (ws_words (c :: c' :: t))
    with (if is_ws c then ws_words (c' :: t)
          else if is_ws c' then [c] :: ws_words (c' :: t)
               else match ws_words (c' :: t) with
                    | w :: r => (c :: w) :: r
                    | [] => [[c]]
                    end).
  rewrite Hc, Hc', Hw. simpl. destruct r; reflexivity.
Qed.

Lemma unwords_nil_inv (ws : list (list N)) :
  Forall (fun w => w ≠ []) ws -> unwords ws = [] -> ws = [].
Proof.
  intros Hne. destruct ws as [|w r]; [done|].
  inversion Hne as [|? ? Hw _]; subst. simpl.
  destruct r; [done|]. destruct w; done.
Qed.

Lemma ws_words_nonempty s : Forall (fun w => w ≠ []) (ws_words s).
Proof.
  induction s as [|c t IH]; [constructor|].
  simpl. destruct (is_ws c); [exact IH|].
  destruct t as [|c' t']; [by repeat constructor|].
  destruct (is_ws c'); [by constructor|].
  destruct (ws_words (c' :: t')) as [|w r]; [by repeat constructor|].
  inversion IH; subst. by constructor.
Qed.

(** [replace] then [trim] writes the words of the input, one space apart. *)
Lemma trim_replace_ws_words s :
  trim (replace_ws s) = unwords (ws_words s).
Proof.
  rewrite trim_replace_ws.
  induction s as [|c t IH]; [reflexivity|].
  destruct (is_ws c) eqn:Hc.
  - simpl. rewrite Hc. exact IH.
  - simpl trimStart. rewrite Hc.
    unfold replace_ws. simpl replace_ws_from. rewrite Hc.
    rewrite trimEnd_cons_nonws by done.
    destruct t as [|c' t']; [simpl; by rewrite Hc|].
    destruct (is_ws c') eqn:Hc'.
    + simpl replace_ws_from. rewrite Hc'.
      rewrite trimEnd_cons_ws by apply is_ws_SP.
      rewrite replace_ws_from_true.
      simpl trimStart in IH. rewrite Hc' in IH. rewrite IH.
      change (ws_words (c :: c' :: t'))
        with (if is_ws c then ws_words (c' :: t')
              else if is_ws c' then [c] :: ws_words (c' :: t')
                   else match ws_words (c' :: t') with
                        | w :: r => (c :: w) :: r
                        | [] => [[c]]
                        end).
      rewrite Hc, Hc'.
      assert (Hne := ws_words_nonempty (c' :: t')).
      set (W := ws_words (c' :: t')) in *. clearbody W.
      destruct (unwords W) eqn:Hu.
      * apply unwords_nil_inv in Hu; [|done]. by subst W.
      * destruct W as [|w W']; [done|].
        change (unwords ([c] :: w :: W'))
          with ([c] ++ SP :: unwords (w :: W')).
        by rewrite Hu.
    + rewrite ws_words_cons_cons by done.
      simpl trimStart in IH. rewrite Hc' in IH.
      unfold replace_ws in IH. by rewrite IH.
Qed.

Lemma ws_words_cons_eq c t :
  ws_words (c :: t) =
  if is_ws c then ws_words t
  else match t with
       | [] => [[c]]
       | c' :: _ =>
           if is_ws c' then [c] :: ws_words t
           else match ws_words t with
                | w :: r => (c :: w) :: r
                | [] => [[c]]
                end
       end.
Proof. reflexivity. Qed.

Lemma ws_words_ws_free s : Forall ws_free (ws_words s).
Proof.
  induction s as [|c t IH]; [constructor|].
  rewrite ws_words_cons_eq. destruct (is_ws c) eqn:Hc; [exact IH|].
  destruct t as [|c' t']; [by repeat constructor|].
  destruct (is_ws c'); [constructor; [by repeat constructor|exact IH]|].
  destruct (ws_words (c' :: t')) as [|w r]; [by repeat constructor|].
  inversion IH; subst. constructor; [by constructor|done].
Qed.

Lemma ws_words_word (w : list N) :
  w ≠ [] -> ws_free w -> ws_words w = [w].
Proof.
  induction w as [|c w IH]; [done|]. intros _ Hfree.
  inversion Hfree as [|? ? Hc Hw]; subst.
  rewrite ws_words_cons_eq, Hc. destruct w as [|c' w']; [done|].
  inversion Hw as [|? ? Hc' _]; subst. rewrite Hc', IH by done. done.
Qed.

Lemma ws_words_word_sp (w rest : list N) :
  w ≠ [] -> ws_free w -> ws_words (w ++ SP :: rest) = w :: ws_words rest.
Proof.
  induction w as [|c w IH]; [done|]. intros _ Hfree.
  inversion Hfree as [|? ? Hc Hw]; subst.
  change ((c :: w) ++ SP :: rest) with (c :: (w ++ SP :: rest)).
  rewrite ws_words_cons_eq, Hc. destruct w as [|c' w'].
  - change ([] ++ SP :: rest) with (SP :: rest). cbv match.
    rewrite is_ws_SP. by rewrite (ws_words_cons_eq SP), is_ws_SP.
  - inversion Hw as [|? ? Hc' _]; subst.
    change ((c' :: w') ++ SP :: rest) with (c' :: (w' ++ SP :: rest)) in *.
    cbv match. rewrite Hc', IH by done. done.
Qed.

Lemma ws_words_unwords (W : list (list N)) :
  Forall (fun w => w ≠ []) W -> Forall ws_free W -> ws_words (unwords W) = W.
Proof.
  induction W as [|w r IH]; [done|]. intros Hne Hfree.
  inversion Hne; inversion Hfree; subst. simpl.
  destruct r as [|w' r']; [by apply ws_words_word|].
  rewrite ws_words_word_sp by done. by rewrite IH.
Qed.

Lemma trim_replace_ws_idem s :
  trim (replace_ws (trim (replace_ws s))) = trim (replace_ws s).
Proof.
  rewrite !trim_replace_ws_words, ws_words_unwords;
    auto using ws_words_nonempty, ws_words_ws_free.
Qed.

Lemma trimStart_head s c r : trimStart s = c :: r -> is_ws c = false.
Proof.
  induction s as [|c' t IH]; [done|]. simpl.
  destruct (is_ws c') eqn:Hc'; [done|]. by intros [= -> _].
Qed.

Lemma trim_head s c r : trim s = c :: r -> is_ws c = false.
Proof.
  unfold trim. destruct (trimStart s) as [|c' t] eqn:Hs; [done|].
  apply trimStart_head in Hs. rewrite trimEnd_cons_nonws by done.
  by intros [= <- _].
Qed.

(** Normalising a string that starts with a visible character keeps it
    non-empty. *)
Lemma trim_replace_ws_nonempty c r :
  is_ws c = false -> trim (replace_ws (c :: r)) ≠ [].
Proof.
  intros Hc. rewrite trim_replace_ws_words.
  destruct (ws_words_nonws_cons c r Hc) as (w & W & HW).
  intros Hnil. apply unwords_nil_inv in Hnil; [congruence|].
  apply ws_words_nonempty.
Qed.

Lemma trimmed_normalises_nonempty s :
  trim s ≠ [] -> trim (replace_ws (trim s)) ≠ [].
Proof.
  destruct (trim s) as [|c r] eqn:Hs; [done|]. intros _.
  apply trim_replace_ws_nonempty. by apply trim_head in Hs.
Qed.

End TextFacts.

(** C9. The normaliser ([normaliseText] in index.js, [norm] in the two
    other scripts) is a total function of a string or an absent value: it
    writes the words of its input separated by single spaces, with no
    whitespace at either end (every run of whitespace collapsed, both ends
    trimmed); an absent input gives the empty string; it is idempotent; and
    it maps ["  a   b "] to ["a b"]. *)
Theorem normalize_total_idempotent :
  (forall s, IndexJs.normaliseText s = normalize_spec s
             /\ Part000.norm s = normalize_spec s
             /\ Part001.norm s = normalize_spec s)
  /\ (forall s, Forall (fun w => w ≠ [] /\ ws_free w) (ws_words (or_empty s)))
  /\ (IndexJs.normaliseText None = [] /\ Part000.norm None = []
      /\ Part001.norm None = [])
  /\ (forall s,
        IndexJs.normaliseText (Some (IndexJs.normaliseText s))
          = IndexJs.normaliseText s
        /\ Part000.norm (Some (Part000.norm s)) = Part000.norm s
        /\ Part001.norm (Some (Part001.norm s)) = Part001.norm s)
  /\ (IndexJs.normaliseText (Some (js "  a   b ")) = js "a b"
      /\ Part000.norm (Some (js "  a   b ")) = js "a b"
      /\ Part001.norm (Some (js "  a   b ")) = js "a b").
Proof.
  split; [|split; [|split; [|split]]].
  - intros s. unfold IndexJs.normaliseText, Part000.norm, Part001.norm,
      normalize_spec. by rewrite trim_replace_ws_words.
  - intros s. apply Forall_forall. intros w Hw. split.
    + by apply (proj1 (Forall_forall _ _) (ws_words_nonempty (or_empty s))).
    + by apply (proj1 (Forall_forall _ _) (ws_words_ws_free (or_empty s))).
  - done.
  - intros s. unfold IndexJs.normaliseText, Part000.norm, Part001.norm.
    simpl or_empty. by rewrite trim_replace_ws_idem.
  - by vm_compute.
Qed.

(* ================================================================== *)
(** * Country extraction                                            *)
(* ================================================================== *)

Section CountryFacts.

Lemma last_filter_segments (L : list (list N)) :
  default [] (last (filter (fun p => p ≠ []) (trim <$> L)))
  = last_nonempty_segment L.
Proof.
  induction L as [|x r IH]; [done|].
  rewrite fmap_cons, filter_cons. simpl last_nonempty_segment.
  rewrite <- IH. clear IH.
  set (fl := filter (fun p => p ≠ []) (trim <$> r)).
  assert (Hfl : forall y, last fl = Some y -> y ≠ []).
  { intros y Hy. apply last_Some_elem_of in Hy.
    by apply list_elem_of_filter in Hy as [? _]. }
  destruct (decide (trim x ≠ [])) as [Hx|Hx].
  - rewrite last_cons. destruct (last fl) as [y|] eqn:Hy; simpl; [|done].
    specialize (Hfl y eq_refl). by destruct y.
  - apply dec_stable in Hx.
    destruct (last fl) as [y|] eqn:Hy; simpl; [|done].
    specialize (Hfl y eq_refl). by destruct y.
Qed.

(** The two later scripts return the last segment that is non-empty once
    trimmed. *)
Lemma extractCountry_last_nonempty (location : option (list N)) :
  Part000.extractCountry location = extractCountry_spec location
  /\ Part001.extractCountry location = extractCountry_spec location.
Proof.
  unfold Part000.extractCountry, Part001.extractCountry, extractCountry_spec,
    Part000.norm, Part001.norm, normalize_spec.
  rewrite trim_replace_ws_words.
  set (L := split COMMA _). rewrite <- last_filter_segments.
  destruct (filter _ _) eqn:Hf; by case_decide.
Qed.

Lemma extractCountry_examples :
  Part000.extractCountry (Some (js "City, Region, Country")) = js "Country"
  /\ Part000.extractCountry (Some []) = []
  /\ Part000.extractCountry (Some (js "OnlyOne")) = js "OnlyOne"
  /\ IndexJs.extractCountry (Some (js "City, Region, Country")) = js "Country"
  /\ IndexJs.extractCountry (Some []) = []
  /\ IndexJs.extractCountry (Some (js "OnlyOne")) = js "OnlyOne".
Proof. by vm_compute. Qed.

End CountryFacts.

(** C8. On a location that ends in a comma, [extractCountry] of index.js
    returns the empty last segment instead of the last non-empty one: it
    maps ["London,"] to the empty string, where the specified function, and
    [extractCountry] of the two other scripts, give ["London"]. *)
Theorem extractCountry_index_js_trailing_comma :
  IndexJs.extractCountry (Some (js "London,")) = []
  /\ extractCountry_spec (Some (js "London,")) = js "London"
  /\ Part000.extractCountry (Some (js "London,")) = js "London"
  /\ Part001.extractCountry (Some (js "London,")) = js "London".
Proof. by vm_compute. Qed.

(* ================================================================== *)
(** * [Map] and the merge of page batches                           *)
(* ================================================================== *)

Section MapFacts.

Context {V : Type}.
Implicit Types (m : JsMap V) (k : list N) (v : V).

Lemma map_set_keys k v m :
  map_keys (map_set k v m)
  = if decide (k ∈ map_keys m) then map_keys m else map_keys m ++ [k].
Proof.
  unfold map_keys. induction m as [|[k' v'] r IH]; [done|]. simpl.
  destruct (decide (k' = k)) as [->|Hne].
  - simpl. rewrite decide_True by set_solver. done.
  - rewrite fmap_cons. simpl fst. rewrite IH. destruct (decide (k ∈ r.*1)).
    + rewrite decide_True by set_solver. done.
    + rewrite decide_False by set_solver. done.
Qed.

Lemma map_set_size k v m :
  map_size (map_set k v m)
  = if decide (k ∈ map_keys m) then map_size m else S (map_size m).
Proof.
  unfold map_size. rewrite <- !(length_fmap fst).
  change (length (map_keys (map_set k v m))
          = if decide (k ∈ map_keys m) then length (map_keys m)
            else S (length (map_keys m))).
  rewrite map_set_keys. case_decide; [done|]. rewrite length_app. simpl. lia.
Qed.

Lemma map_get_set k k' v m :
  map_get k' (map_set k v m)
  = if decide (k = k') then Some v else map_get k' m.
Proof.
  induction m as [|[k0 v0] r IH]; simpl.
  - done.
  - destruct (decide (k0 = k)) as [->|Hne]; simpl.
    + by destruct (decide (k = k')).
    + rewrite IH. destruct (decide (k0 = k')) as [->|]; [|done].
      by rewrite decide_False.
Qed.

Lemma map_set_NoDup k v m : NoDup (map_keys m) -> NoDup (map_keys (map_set k v m)).
Proof.
  intros Hnd. rewrite map_set_keys. case_decide; [done|].
  apply NoDup_app. split; [done|]. split; [set_solver|].
  apply NoDup_singleton.
Qed.


Lemma map_set_entries (Q : list N -> V -> Prop) k v m :
  Q k v -> Forall (fun e => Q e.1 e.2) m -> Forall (fun e => Q e.1 e.2) (map_set k v m).
Proof.
  intros Hv. induction m as [|[k' v'] r IH]; simpl.
  - by repeat constructor.
  - intros Hall. inversion Hall; subst. destruct (decide (k' = k)); simpl.
    + by constructor.
    + constructor; [done|]. by apply IH.
Qed.

Lemma map_get_entry k v m :
  NoDup (map_keys m) -> (k, v) ∈ m -> map_get k m = Some v.
Proof.
  unfold map_keys. induction m as [|[k' v'] r IH]; simpl.
  - by intros _ ?%elem_of_nil.
  - intros [Hk' Hr]%NoDup_cons [Heq|Hin]%elem_of_cons.
    + injection Heq as -> ->. by rewrite decide_True.
    + rewrite decide_False; [by apply IH|].
      intros ->. apply Hk'. apply list_elem_of_fmap. by exists (k, v).
Qed.

End MapFacts.

Section MergeFacts.

Implicit Types (m : JsMap RawJob) (js : list RawJob) (k : list N).

Lemma merge_jobs_keys m js :
  map_keys (merge_jobs m js)
  = map_keys m ++ unseen (map_keys m) (raw_href <$> js).
Proof.
  revert m. induction js as [|j r IH]; intros m; simpl.
  - by rewrite app_nil_r.
  - rewrite IH, map_set_keys. case_decide; [done|]. by rewrite <- app_assoc.
Qed.

Lemma merge_jobs_NoDup m js :
  NoDup (map_keys m) -> NoDup (map_keys (merge_jobs m js)).
Proof.
  revert m. induction js as [|j r IH]; intros m Hnd; [done|].
  simpl. apply IH. by apply map_set_NoDup.
Qed.

Lemma merge_jobs_keyed m js : keyed m -> keyed (merge_jobs m js).
Proof.
  revert m. induction js as [|j r IH]; intros m Hk; [done|].
  simpl. apply IH. by apply (map_set_entries (fun k v => raw_href v = k)).
Qed.


(** Last write per link wins. *)
Lemma merge_jobs_get k m js :
  map_get k (merge_jobs m js)
  = match last_with_link k js with
    | Some j => Some j
    | None => map_get k m
    end.
Proof.
  unfold last_with_link. revert m.
  induction js as [|j r IH]; intros m; [done|].
  simpl. rewrite IH, filter_cons, map_get_set.
  destruct (decide (raw_href j = k)) as [Hk|Hk].
  - rewrite last_cons. by destruct (last (filter _ r)).
  - by destruct (last (filter _ r)).
Qed.

Lemma merge_jobs_app m js1 js2 :
  merge_jobs m (js1 ++ js2) = merge_jobs (merge_jobs m js1) js2.
Proof. apply foldl_app. Qed.

Lemma merge_jobs_batches m (batches : list (list RawJob)) :
  foldl merge_jobs m batches = merge_jobs m (concat batches).
Proof.
  revert m. induction batches as [|b r IH]; intros m; [done|].
  simpl. by rewrite IH, merge_jobs_app.
Qed.

Lemma keyed_values_keys m : keyed m -> raw_href <$> map_values m = map_keys m.
Proof.
  unfold keyed, map_values, map_keys.
  induction m as [|[k v] r IH]; [done|].
  intros Hk. inversion Hk; subst. simpl in *. f_equal; [done|]. by apply IH.
Qed.

(** Merging a batch leaves the size unchanged exactly when every link of
    the batch is in the map already. *)
Lemma merge_jobs_size_le m js : map_size m <= map_size (merge_jobs m js).
Proof.
  revert m. induction js as [|j r IH]; intros m; [done|].
  simpl. etrans; [|apply IH]. rewrite map_set_size. case_decide; lia.
Qed.

Lemma merge_jobs_same_size m js :
  map_size (merge_jobs m js) = map_size m
  <-> Forall (fun j => raw_href j ∈ map_keys m) js.
Proof.
  revert m. induction js as [|j r IH]; intros m; simpl.
  - split; [constructor|done].
  - assert (Hle := merge_jobs_size_le (map_set (raw_href j) j m) r).
    specialize (IH (map_set (raw_href j) j m)).
    rewrite map_set_size in Hle, IH. rewrite map_set_keys in IH.
    destruct (decide (raw_href j ∈ map_keys m)) as [Hin|Hin].
    + rewrite IH. split; [by constructor|]. by inversion 1.
    + split; [lia|]. by inversion 1.
Qed.

End MergeFacts.

(* ================================================================== *)
(** * Page extractor                                                *)
(* ================================================================== *)

(** The two later scripts answer a page on which no job link appears in
    time with the empty batch. *)
Lemma scrapePage_not_mounted (obs : PageObs) :
  nav_ok obs = true -> mounted obs = false ->
  Part000.scrapePage obs = Return [] /\ Part001.scrapePage obs = Return [].
Proof.
  intros Hnav Hm. unfold Part000.scrapePage, Part001.scrapePage.
  rewrite Hnav, Hm. simpl.
  unfold Part000.acceptCookies, Part001.acceptCookies.
  by destruct (consent obs).
Qed.

(** C5. In index.js a page on which no job link appears within the wait
    makes [scrapePage] throw the timeout of [waitForSelector], and the run
    exits with code 1; the two other scripts return the empty batch there,
    and the run of part_000 goes on to exit with code 0. *)
Theorem scrapePage_index_js_timeout_throws :
  IndexJs.scrapePage Examples.blank_page = Throw TimeoutError
  /\ (forall fuel now clock faults b,
        IndexJs.exit_code
          <$> IndexJs.main (S fuel) Examples.blank_site now clock faults b
        = Some 1)
  /\ Part000.scrapePage Examples.blank_page = Return []
  /\ Part001.scrapePage Examples.blank_page = Return []
  /\ (forall now b,
        Part000.exit_code (Part000.main Examples.blank_site now Examples.no_faults b) = 0).
Proof.
  split; [done|]. split; [done|]. split; [done|]. split; [done|].
  intros now b. unfold Part000.main, Part000.scrapeJobs.
  rewrite Part000.crawl_loop_equation_1. done.
Qed.

(* ================================================================== *)
(** * Start-up checks                                               *)
(* ================================================================== *)

(** The two Supabase scripts stop at their first statements when a
    credential is missing: exit code 1, no page loaded, no request sent. *)
Lemma supabase_credentials_checked_at_startup :
  (forall env fuel site now clock faults b,
      truthy (IndexJs.supabaseUrl env) = false
      \/ truthy (IndexJs.supabaseKey env) = false ->
      IndexJs.program env fuel site now clock faults b
      = Some (IndexJs.mkRun 1 (IndexJs.mkCrawl [] []) b))
  /\ (forall env site now faults b,
      truthy (Part000.supabaseUrl env) = false
      \/ truthy (Part000.supabaseKey env) = false ->
      Part000.program env site now faults b
      = Part000.mkRun 1 (Part000.mkCrawl [] ∅ 0 [] []) b).
Proof.
  split.
  - intros env fuel site now clock faults b [H|H];
      unfold IndexJs.program; rewrite H; by rewrite ?orb_true_r.
  - intros env site now faults b [H|H];
      unfold Part000.program; rewrite H; by rewrite ?orb_true_r.
Qed.

(** C6. part_001 checks its required sink credentials inside [postToBolt]
    only: without [INGEST_KEY] the run still loads the results page and
    writes [jobs.json], and fails afterwards, with nothing posted and exit
    code 1. *)
Theorem part_001_checks_credentials_after_crawl :
  let run := Part001.program Examples.no_ingest_key_config
               Examples.two_jobs_site Examples.next_absent 1000 true
               Examples.accepting_sink in
  truthy (Part001.INGEST_KEY Examples.no_ingest_key_config) = false
  /\ Part001.exit_code run = 1
  /\ Part001.visited (Part001.crawl run) = [BaseUrl]
  /\ (exists payload, Part001.jobs_json (Part001.outputs run) = Some payload
                      /\ count payload = 2)
  /\ Part001.posts (Part001.outputs run) = [].
Proof.
  vm_compute. repeat split. eexists. split; reflexivity.
Qed.

(* ================================================================== *)
(** * Pagination of index.js                                        *)
(* ================================================================== *)

Section IndexJsLoop.
Import IndexJs.

Lemma same_page_batch n u :
  exists jobs, scrapePage (Examples.same_page_site n u) = Return jobs
               /\ length jobs = 10.
Proof. eexists. split; [reflexivity|]. by vm_compute. Qed.

Lemma crawl_loop_same_page_site fuel :
  forall pageOffset c,
    crawl_loop fuel Examples.same_page_site pageOffset c = None.
Proof.
  induction fuel as [|fuel IH]; intros pageOffset c; [done|].
  destruct (same_page_batch (length (visited c))
              (if decide (pageOffset = 0) then BaseUrl else FromUrl pageOffset))
    as (jobs & Hjobs & Hlen).
  cbn [crawl_loop visited]. rewrite Hjobs.
  rewrite decide_False by lia.
  rewrite decide_False by (unfold PAGE_SIZE; lia).
  apply IH.
Qed.

End IndexJsLoop.

(** C3. The pagination loop of index.js has no page-count ceiling: on a
    site that answers every request with a full page it never stops,
    whatever number of pages it has loaded; the same site stops part_000
    after [MAX_PAGES] = 60 loads. *)
Theorem index_js_pagination_unbounded :
  (forall fuel now, IndexJs.scrapeJobs fuel Examples.same_page_site now = None)
  /\ (forall now,
        let c := (Part000.scrapeJobs Examples.same_page_site now).2 in
        Part000.iterations c = 60 /\ length (Part000.visited c) = 60).
Proof.
  split.
  - intros fuel now. unfold IndexJs.scrapeJobs.
    by rewrite crawl_loop_same_page_site.
  - intros now. by vm_compute.
Qed.

(* ================================================================== *)
(** * Reconciliation of index.js                                    *)
(* ================================================================== *)

(** C1. [updateDatabase] of index.js first marks every active row
    inactive, without a watermark, and stamps each upsert with the clock
    of that call. On a table holding an active row [X] stamped 2000 and
    the snapshot [{B}] with watermark 1000, the deactivation is the first
    request, [X] (absent from the snapshot, stamped after the watermark)
    ends inactive, and [B] ends stamped 1005 instead of 1000. part_000, on
    the same input, upserts first, deactivates rows older than the
    watermark only, leaves [X] as it was and stamps [B] with 1000. *)
Theorem index_js_deactivates_without_watermark :
  let x := js "https://jobs.example/job/x" in
  let a := js "https://jobs.example/job/a" in
  let b := js "https://jobs.example/job/b" in
  let start := mkBackend Examples.stale_and_later [] in
  let v1 := (IndexJs.updateDatabase Examples.no_faults Examples.later_clock
               Examples.snapshot_b start).2 in
  let v0 := (Part000.updateDatabase Examples.no_faults
               Examples.snapshot_b start).2 in
  (head (received v1) = Some (Deactivate None)
   /\ deactivations (received v1) = [None]
   /\ db v1 !! x = Some (Examples.persisted "X" false 2000)
   /\ p_updated_at <$> db v1 !! b = Some 1005%Z)
  /\ (last (received v0) = Some (Deactivate (Some 1000%Z))
      /\ deactivations (received v0) = [Some 1000%Z]
      /\ db v0 !! x = Some (Examples.persisted "X" true 2000)
      /\ db v0 !! a = Some (Examples.persisted "A" false 100)
      /\ p_updated_at <$> db v0 !! b = Some 1000%Z
      /\ p_is_active <$> db v0 !! b = Some true).
Proof.
  cbv zeta. repeat split; vm_compute; reflexivity.
Qed.

(** C2. index.js never looks at the response of an upsert. When the
    upsert of the first job fails, the run still ends with exit code 0;
    the row of that job, live on the site, stays as the deactivation that
    went before left it: inactive, with its old stamp. part_000 throws the
    error of a failed chunk, sends no deactivation and exits with 1. *)
Theorem index_js_ignores_upsert_errors :
  let a := js "https://jobs.example/job/a" in
  let b := js "https://jobs.example/job/b" in
  let start := mkBackend Examples.earlier_run [] in
  let v1 := IndexJs.main 1 Examples.two_jobs_site 1000 Examples.later_clock
              (Examples.fault_at 1) start in
  let v0 := Part000.main Examples.two_jobs_site 1000
              (Examples.fault_at 0) start in
  (links_v1 (IndexJs.scrapeJobs 1 Examples.two_jobs_site 1000) = [a; b]
   /\ IndexJs.exit_code <$> v1 = Some 0
   /\ (fun run => db (IndexJs.backend run) !! a) <$> v1
      = Some (Some (Examples.persisted "A" false 100)))
  /\ (Part000.exit_code v0 = 1
      /\ length (received (Part000.backend v0)) = 1
      /\ deactivations (received (Part000.backend v0)) = []
      /\ db (Part000.backend v0) !! a = Some (Examples.persisted "A" true 100)
      /\ db (Part000.backend v0) !! b = Some (Examples.persisted "B" true 100)).
Proof.
  cbv zeta. repeat split; vm_compute; reflexivity.
Qed.

(* ================================================================== *)
(** * Reconciliation of part_000                                    *)
(* ================================================================== *)

Section Part000Store.
Import Part000.

Implicit Types (b : Backend) (rows : list Row) (faults : Faults).

Lemma upsert_chunks_unfold faults rows i b :
  upsert_chunks faults rows i b =
  if decide (i < length rows) then
    match send faults (Upsert (take CHUNK (drop i rows))) b with
    | (Some error, b') => (Throw error, b')
    | (None, b') => upsert_chunks faults rows (i + CHUNK) b'
    end
  else (Return tt, b).
Proof.
  rewrite upsert_chunks_equation_1. unfold upsert_chunks_unfold_clause_1.
  destruct (decide (i < length rows)); reflexivity.
Qed.

Lemma upsert_chunks_post faults rows k :
  forall i b, length rows - i <= k ->
    chunks_post faults rows i b (upsert_chunks faults rows i b).
Proof.
  induction k as [|k IH]; intros i b Hk; rewrite upsert_chunks_unfold.
  - rewrite decide_False by lia. exists []. simpl.
    rewrite app_nil_r, drop_ge by lia. repeat split; [constructor|lia].
  - destruct (decide (i < length rows)) as [Hi|Hi].
    2:{ exists []. simpl. rewrite app_nil_r, drop_ge by lia.
        repeat split; [constructor|lia]. }
    unfold send.
    destruct (faults (length (received b))) as [e|] eqn:Hf.
    + exists [Upsert (take CHUNK (drop i rows))]. simpl.
      repeat split; [by repeat constructor|].
      exists 0. rewrite Nat.add_0_r. repeat split; [done|lia].
    + set (b1 := mkBackend _ _).
      destruct (IH (i + CHUNK) b1) as (reqs & Hrec & Hups & Hres).
      { unfold CHUNK. lia. }
      exists (Upsert (take CHUNK (drop i rows)) :: reqs).
      split; [by rewrite Hrec; simpl; rewrite <- app_assoc|].
      split; [by constructor|].
      assert (Hlen : length (received b1) = S (length (received b))).
      { simpl. rewrite length_app. simpl. lia. }
      rewrite Hlen in Hres.
      destruct (upsert_chunks faults rows (i + CHUNK) b1).1 as [[]|e].
      * destruct Hres as [Hnone Hdb]. split.
        -- intros [|j] Hj; [by rewrite Nat.add_0_r|].
           simpl in Hj. rewrite <- Nat.add_succ_comm. apply Hnone. lia.
        -- rewrite Hdb. simpl.
           rewrite <- (take_drop CHUNK (drop i rows)) at 2.
           rewrite foldl_app, drop_drop. done.
      * destruct Hres as (j & Hj & Hfail & Hbefore).
        exists (S j). simpl. rewrite Hj. split; [done|].
        rewrite <- Nat.add_succ_comm. split; [done|].
        intros [|j'] Hj'; [by rewrite Nat.add_0_r|].
        rewrite <- Nat.add_succ_comm. apply Hbefore. lia.
Qed.

(** Rows the upserts do not name keep their state; a row they name ends
    as its last upsert wrote it. *)
Lemma upserts_other (url : list N) rows (d : Store) :
  url ∉ r_url <$> rows -> foldl upsert_row d rows !! url = d !! url.
Proof.
  revert d. induction rows as [|r rest IH]; intros d Hnot; [done|].
  simpl. rewrite IH by set_solver. unfold upsert_row.
  apply lookup_insert_ne. set_solver.
Qed.

Lemma upserts_refreshed (T : Z) (url : list N) rows (d : Store) :
  Forall (fun r => refreshed T (persisted_of r)) rows ->
  (exists p, d !! url = Some p /\ refreshed T p) \/ url ∈ r_url <$> rows ->
  exists p, foldl upsert_row d rows !! url = Some p /\ refreshed T p.
Proof.
  revert d. induction rows as [|r rest IH]; intros d Hall Hurl.
  - destruct Hurl as [Hp|Hin]; [done|]. by apply elem_of_nil in Hin.
  - inversion Hall as [|? ? Hr Hrest]; subst. simpl. apply IH; [done|].
    unfold upsert_row. destruct (decide (r_url r = url)) as [<-|Hne].
    + left. exists (persisted_of r). by rewrite lookup_insert_eq.
    + destruct Hurl as [Hp|Hin].
      * left. by rewrite lookup_insert_ne.
      * right. rewrite fmap_cons in Hin. set_solver.
Qed.

Lemma row_of_refreshed (T : Z) (j : Job) : refreshed T (persisted_of (row_of T j)).
Proof. done. Qed.

(** A run in which every request succeeds reads the table as: all rows
    of the snapshot upserted, then the rows older than the watermark
    deactivated. *)
Lemma updateDatabase_returns faults payload b b' :
  updateDatabase faults payload b = (Return tt, b') ->
  let T := scraped_at payload in
  let rows := row_of T <$> jobs payload in
  db b' = deactivate_row (Some T) <$> foldl upsert_row (db b) rows
  /\ exists ups, received b' = received b ++ ups ++ [Deactivate (Some T)]
                 /\ Forall is_upsert ups.
Proof.
  unfold updateDatabase. intros Hrun. cbv zeta in *.
  set (T := scraped_at payload) in *. set (rows := row_of T <$> jobs payload) in *.
  destruct (upsert_chunks_post faults rows (length rows) 0 b ltac:(lia))
    as (ups & Hrec & Hups & Hres).
  destruct (upsert_chunks faults rows 0 b) as [[[]|e] b1]; [|done].
  simpl in Hrec, Hres. destruct Hres as [_ Hdb]. rewrite drop_0 in Hdb.
  unfold send in Hrun.
  destruct (faults (length (received b1))); [done|].
  injection Hrun as <-. simpl. rewrite Hdb, Hrec. split; [done|].
  exists ups. by rewrite <- app_assoc.
Qed.

(** Without faults the run does return. *)
Lemma updateDatabase_succeeds faults payload b :
  (forall k, faults k = None) ->
  exists b', updateDatabase faults payload b = (Return tt, b').
Proof.
  intros Hnone. unfold updateDatabase.
  set (rows := row_of _ <$> _).
  destruct (upsert_chunks_post faults rows (length rows) 0 b ltac:(lia))
    as (ups & _ & _ & Hres).
  destruct (upsert_chunks faults rows 0 b) as [[[]|e] b1].
  - unfold send. rewrite Hnone. by eexists.
  - simpl in Hres. destruct Hres as (j & _ & Hf & _). by rewrite Hnone in Hf.
Qed.

(** The reconciliation the specification describes, for part_000: after a
    run that returns, with watermark [T], every record of the snapshot is
    active and stamped [T]; a row absent from the snapshot that was active
    and older than [T] is inactive; any other row absent from the snapshot
    is as it was; and the deactivation is the last request, after all the
    upserts. *)
Lemma updateDatabase_reconciles faults payload b b' :
  updateDatabase faults payload b = (Return tt, b') ->
  let T := scraped_at payload in
  (forall job, job ∈ jobs payload ->
     exists p, db b' !! href job = Some p /\ refreshed T p)
  /\ (forall url p, db b !! url = Some p -> url ∉ href <$> jobs payload ->
       p_is_active p = true -> (p_updated_at p < T)%Z ->
       db b' !! url = Some (inactive p))
  /\ (forall url p, db b !! url = Some p -> url ∉ href <$> jobs payload ->
       (T <= p_updated_at p)%Z -> db b' !! url = Some p)
  /\ exists ups, received b' = received b ++ ups ++ [Deactivate (Some T)]
                 /\ Forall is_upsert ups.
Proof.
  intros Hrun. apply updateDatabase_returns in Hrun as [Hdb Hrec].
  cbv zeta in *. set (T := scraped_at payload) in *.
  assert (Hurls : r_url <$> (row_of T <$> jobs payload) = href <$> jobs payload).
  { rewrite <- list_fmap_compose. done. }
  split; [|split; [|split]]; [| | |done].
  - intros job Hjob.
    destruct (upserts_refreshed T (href job) (row_of T <$> jobs payload) (db b))
      as (p & Hp & Hact & Hat).
    { apply Forall_fmap, Forall_forall. intros; apply row_of_refreshed. }
    { right. rewrite Hurls. by apply list_elem_of_fmap_2. }
    exists p. rewrite Hdb, lookup_fmap, Hp. simpl.
    unfold deactivate_row, selected. rewrite Hact, Hat, Z.ltb_irrefl. done.
  - intros url p Hp Hnot Hact Hold.
    rewrite Hdb, lookup_fmap, upserts_other, Hp by (by rewrite Hurls). simpl.
    unfold deactivate_row, selected. rewrite Hact.
    by rewrite (proj2 (Z.ltb_lt _ _) Hold).
  - intros url p Hp Hnot Hnew.
    rewrite Hdb, lookup_fmap, upserts_other, Hp by (by rewrite Hurls). simpl.
    unfold deactivate_row, selected.
    rewrite (proj2 (Z.ltb_ge _ _) Hnew), andb_false_r. done.
Qed.

(** A chunk whose upsert fails aborts part_000: [updateDatabase] throws
    that very error, no deactivation has been sent, and the run exits
    with code 1. *)
Lemma updateDatabase_chunk_failure faults payload b k rows e :
  let res := updateDatabase faults payload b in
  let sent := drop (length (received b)) (received res.2) in
  sent !! k = Some (Upsert rows) ->
  faults (length (received b) + k) = Some e ->
  res.1 = Throw e /\ forall t, Deactivate t ∉ sent.
Proof.
  unfold updateDatabase. set (rws := row_of _ <$> _).
  destruct (upsert_chunks_post faults rws (length rws) 0 b ltac:(lia))
    as (ups & Hrec & Hups & Hres).
  destruct (upsert_chunks faults rws 0 b) as [[[]|e'] b1]; simpl in *.
  - destruct Hres as [Hnone _]. unfold send.
    assert (Hsent :
              drop (length (received b))
                   (received b1 ++ [Deactivate (Some (scraped_at payload))])
              = ups ++ [Deactivate (Some (scraped_at payload))]).
    { rewrite Hrec, <- app_assoc, drop_app_length. done. }
    intros Hk Hf. exfalso.
    destruct (faults (length (received b1))); simpl in Hk;
      rewrite Hsent in Hk;
      (destruct (decide (k < length ups)) as [Hlt|Hge];
       [rewrite Hnone in Hf by done; done|]);
      rewrite lookup_app_r in Hk by lia;
      destruct (k - length ups); done.
  - destruct Hres as (j & Hlen & Hfail & Hbefore).
    rewrite Hrec, drop_app_length. intros Hk Hf.
    assert (k < length ups) by (by eapply lookup_lt_Some).
    destruct (decide (k < j)) as [Hlt|Hge].
    { rewrite Hbefore in Hf by done. done. }
    assert (k = j) as -> by lia. rewrite Hfail in Hf. injection Hf as ->.
    split; [done|]. intros t Hin.
    by apply (proj1 (Forall_forall _ _) Hups) in Hin.
Qed.

(** Two runs in a row: [{A, B}] at 100, then [{B, C}] at 1000, leave [A]
    inactive and [B], [C] active. *)
Lemma two_runs_scenario :
  let first := (updateDatabase Examples.no_faults Examples.snapshot_ab
                  (mkBackend ∅ [])).2 in
  let second := (updateDatabase Examples.no_faults Examples.snapshot_bc first).2 in
  p_is_active <$> db second !! js "https://jobs.example/job/a" = Some false
  /\ p_is_active <$> db second !! js "https://jobs.example/job/b" = Some true
  /\ p_is_active <$> db second !! js "https://jobs.example/job/c" = Some true.
Proof. cbv zeta. repeat split; vm_compute; reflexivity. Qed.

Lemma main_chunk_failure site now faults b payload c k rows e :
  scrapeJobs site now = (Return payload, c) ->
  let res := updateDatabase faults payload b in
  drop (length (received b)) (received res.2) !! k = Some (Upsert rows) ->
  faults (length (received b) + k) = Some e ->
  exit_code (main site now faults b) = 1.
Proof.
  intros Hs res Hk Hf. unfold main. rewrite Hs.
  destruct (updateDatabase_chunk_failure faults payload b k rows e Hk Hf) as [Hres _].
  destruct (updateDatabase faults payload b) as [r b']. simpl in Hres.
  by rewrite Hres.
Qed.

End Part000Store.

(* ================================================================== *)
(** * Batches of the pages loaded                                   *)
(* ================================================================== *)

Section Batches.

Context (scrape : PageObs -> Outcome (list RawJob)) (site : Site).

Lemma page_batches_snoc urls u :
  page_batches scrape site (urls ++ [u])
  = page_batches scrape site urls
    ++ [batch_of (scrape (site (length urls) u))].
Proof.
  unfold page_batches. rewrite imap_app. simpl. by rewrite Nat.add_0_r.
Qed.

Lemma aggregates_nil : aggregates scrape site [] [].
Proof. done. Qed.

(** Loading one more page and merging what it returned. *)
Lemma aggregates_snoc m urls u :
  aggregates scrape site m urls ->
  aggregates scrape site
    (merge_jobs m (batch_of (scrape (site (length urls) u)))) (urls ++ [u]).
Proof.
  unfold aggregates. intros ->.
  rewrite page_batches_snoc, concat_app, merge_jobs_app. simpl.
  by rewrite app_nil_r.
Qed.

(** Loading one more page that contributes nothing. *)
Lemma aggregates_snoc_nil m urls u :
  batch_of (scrape (site (length urls) u)) = [] ->
  aggregates scrape site m urls -> aggregates scrape site m (urls ++ [u]).
Proof.
  intros Hb Hm. apply (aggregates_snoc _ _ u) in Hm. by rewrite Hb in Hm.
Qed.

End Batches.

(* ================================================================== *)
(** * Pagination of part_000                                        *)
(* ================================================================== *)

Section Part000Loop.
Import Part000.

Lemma crawl_loop_unfold site pageIndex c :
  crawl_loop site pageIndex c =
  if decide (pageIndex < MAX_PAGES) then
    let n := S (iterations c) in
    let offset := pageIndex * PAGE_SIZE in
    if decide (offset ∈ seenOffsets c)
    then (Return tt, mkCrawl (allJobsMap c) (seenOffsets c) n (visited c)
                             (console c ++ [OffsetRepeated]))
    else
      let seen := {[offset]} ∪ seenOffsets c in
      let url := if decide (offset = 0) then BaseUrl else FromUrl offset in
      let loads := visited c ++ [url] in
      match scrapePage (site (length (visited c)) url) with
      | Throw e => (Throw e, mkCrawl (allJobsMap c) seen n loads (console c))
      | Return jobs =>
          if decide (length jobs = 0)
          then (Return tt, mkCrawl (allJobsMap c) seen n loads
                                   (console c ++ [NoJobsOnPage]))
          else
            let m := merge (allJobsMap c) jobs in
            if decide (length jobs < PAGE_SIZE)
            then (Return tt, mkCrawl m seen n loads (console c ++ [ShortPage]))
            else crawl_loop site (S pageIndex) (mkCrawl m seen n loads (console c))
      end
  else (Return tt, c).
Proof.
  rewrite crawl_loop_equation_1. unfold crawl_loop_unfold_clause_1.
  destruct (decide (pageIndex < MAX_PAGES)); reflexivity.
Qed.

Lemma at_page_start site :
  at_page site 0 (mkCrawl [] ∅ 0 [] []).
Proof.
  unfold at_page. simpl.
  split; [done|]. split; [done|].
  split; [intros o Ho; by apply not_elem_of_empty in Ho|].
  split; [done|]. split; [intros; lia|done].
Qed.

Lemma offset_url_eq i :
  (if decide (i * PAGE_SIZE = 0) then BaseUrl else FromUrl (i * PAGE_SIZE))
  = offset_url PAGE_SIZE i.
Proof. done. Qed.

Lemma crawl_loop_stops site k :
  forall i c, MAX_PAGES - i <= k -> i <= MAX_PAGES ->
    at_page site i c -> stopped site (crawl_loop site i c).
Proof.
  induction k as [|k IH];
    intros i c Hk Hi (Hit & Hvis & Hseen & Hagg & Hfull & Hcon);
    rewrite crawl_loop_unfold.
  { rewrite decide_False by lia. exists i. simpl.
    split; [done|]. split; [done|]. split; [done|]. split; [done|].
    split; [intros; apply Hfull; lia|]. split; [|by rewrite Hcon; apply not_elem_of_nil].
    left. repeat split; [lia|done..]. }
  destruct (decide (i < MAX_PAGES)) as [Hlt|Hge].
  2:{ exists i. simpl.
      split; [done|]. split; [done|]. split; [done|]. split; [done|].
      split; [intros; apply Hfull; lia|]. split; [|by rewrite Hcon; apply not_elem_of_nil].
      left. repeat split; [lia|done..]. }
  cbv zeta. rewrite decide_False by (intros Hin; apply Hseen in Hin; lia).
  rewrite offset_url_eq.
  assert (Hlen : length (visited c) = i) by (by rewrite Hvis, length_fmap, length_seq).
  rewrite Hlen.
  assert (Hvis' : visited c ++ [offset_url PAGE_SIZE i]
                  = offset_url PAGE_SIZE <$> seq 0 (S i)).
  { by rewrite seq_S, fmap_app, Hvis. }
  assert (Hnotfull : forall jobs,
            scrapePage (site i (offset_url PAGE_SIZE i)) = Return jobs ->
            jobs = [] \/ length jobs < PAGE_SIZE ->
            ¬ full_batch scrapePage PAGE_SIZE site i).
  { intros jobs Hj Hshort (jobs' & Hj' & Hne & Hsz).
    rewrite Hj in Hj'. injection Hj' as <-. destruct Hshort; [done|lia]. }
  assert (Hsnoc := aggregates_snoc scrapePage site _ _
                     (offset_url PAGE_SIZE i) Hagg).
  rewrite Hlen in Hsnoc.
  destruct (scrapePage (site i (offset_url PAGE_SIZE i))) as [jobs|e] eqn:Hpage;
    simpl in Hsnoc.
  - destruct (decide (length jobs = 0)) as [Hz|Hnz].
    + exists (S i). simpl.
      assert (jobs = []) as -> by (by destruct jobs).
      split; [lia|]. split; [by rewrite Hit|]. split; [done|].
      split; [done|].
      split; [intros; apply Hfull; lia|].
      split; [|by rewrite Hcon; intros [=]%list_elem_of_singleton].
      right. exists i. rewrite Hpage. repeat split; [by eapply Hnotfull; eauto|by rewrite Hcon].
    + destruct (decide (length jobs < PAGE_SIZE)) as [Hshort|Hlong].
      * exists (S i). simpl.
        split; [lia|]. split; [by rewrite Hit|]. split; [done|].
        split; [done|].
        split; [intros; apply Hfull; lia|].
        split; [|by rewrite Hcon; intros [=]%list_elem_of_singleton].
        right. exists i. rewrite Hpage. simpl.
        rewrite decide_False, decide_True by done.
        repeat split; [by eapply Hnotfull; eauto|by rewrite Hcon].
      * apply IH; [lia|lia|]. simpl.
        split; [by rewrite Hit|]. split; [done|].
        split. { intros o [->%elem_of_singleton|Ho%Hseen]%elem_of_union;
                   unfold PAGE_SIZE in *; lia. }
        split; [done|].
        split; [|done].
        intros j Hj. destruct (decide (j = i)) as [->|]; [|apply Hfull; lia].
        exists jobs. repeat split; [done|by destruct jobs|lia].
  - exists (S i). simpl.
    split; [lia|]. split; [by rewrite Hit|]. split; [done|].
    split; [done|].
    split; [intros; apply Hfull; lia|].
    split; [|by rewrite Hcon; apply not_elem_of_nil].
    right. exists i. rewrite Hpage. repeat split; [|by rewrite Hcon].
    intros (jobs' & Hj' & _). by rewrite Hpage in Hj'.
Qed.

(** The offset pagination of part_000: it makes at most [MAX_PAGES]
    iterations, one page load each; every page before the last came back
    full; and it stops before the cap exactly at the first page that is
    empty, short or failed, printing the line of the empty page before
    that of the short one. No offset ever repeats. *)
Lemma part_000_pagination site now :
  stopped site (crawl_loop site 0 (mkCrawl [] ∅ 0 [] []))
  /\ (scrapeJobs site now).2 = (crawl_loop site 0 (mkCrawl [] ∅ 0 [] [])).2
  /\ iterations (scrapeJobs site now).2 <= MAX_PAGES
  /\ length (visited (scrapeJobs site now).2) = iterations (scrapeJobs site now).2.
Proof.
  assert (Hs := crawl_loop_stops site MAX_PAGES 0 _ ltac:(lia) ltac:(lia)
                  (at_page_start site)).
  assert (Heq : (scrapeJobs site now).2 = (crawl_loop site 0 (mkCrawl [] ∅ 0 [] [])).2).
  { unfold scrapeJobs. by destruct (crawl_loop site 0 _) as [[[]|e] c]. }
  split; [done|]. split; [done|]. rewrite Heq.
  destruct Hs as (n & Hn & Hit & Hvis & _). cbv zeta in *.
  rewrite Hit, Hvis, length_fmap, length_seq. done.
Qed.

(** Two pages of ten and of four links: fourteen records, and no third
    page asked for. *)
Lemma part_000_two_pages :
  let res := scrapeJobs Examples.two_page_site 1000 in
  count <$> (match res.1 with Return p => Some p | Throw _ => None end) = Some 14
  /\ visited res.2 = [BaseUrl; FromUrl 10]
  /\ console res.2 = [ShortPage].
Proof. by vm_compute. Qed.

End Part000Loop.

(* ================================================================== *)
(** * Pagination of part_001                                        *)
(* ================================================================== *)

Section Part001Loop.
Import Part001.

Lemma next_loop_unfold cfg site nexts p c :
  next_loop cfg site nexts p c =
  if decide (p <= MAX_PAGES cfg) then
    let n := S (iterations c) in
    let next := nexts p in
    let exists_ := bool_decide (0 < next_count next) in
    let enabled := exists_ && default false (next_isEnabled next) in
    if negb exists_ || negb enabled
    then (Return tt, mkCrawl (allJobsMap c) n (visited c)
                             (console c ++ [NoNextButton]))
    else
      let loads := visited c ++ [CurrentUrl] in
      match scrapePage (site (length (visited c)) CurrentUrl) with
      | Throw e => (Throw e, mkCrawl (allJobsMap c) n loads (console c))
      | Return more =>
          if decide (length more = 0)
          then (Return tt, mkCrawl (allJobsMap c) n loads
                                   (console c ++ [NoJobsOnPage]))
          else
            let before := map_size (allJobsMap c) in
            let m := merge (allJobsMap c) more in
            if decide (map_size m = before)
            then (Return tt, mkCrawl m n loads (console c ++ [NoNewJobs]))
            else next_loop cfg site nexts (S p) (mkCrawl m n loads (console c))
      end
  else (Return tt, c).
Proof.
  rewrite next_loop_equation_1. unfold next_loop_unfold_clause_1.
  destruct (decide (p <= MAX_PAGES cfg)); reflexivity.
Qed.

Lemma crawl_offset_unfold cfg site pageIndex c :
  crawl_offset cfg site pageIndex c =
  if decide (pageIndex < MAX_PAGES cfg) then
    let n := S (iterations c) in
    let offset := pageIndex * PAGE_SIZE cfg in
    let url := if decide (offset = 0) then BaseUrl else FromUrl offset in
    let loads := visited c ++ [url] in
    match scrapePage (site (length (visited c)) url) with
    | Throw e => (Throw e, mkCrawl (allJobsMap c) n loads (console c))
    | Return jobs =>
        if decide (length jobs = 0)
        then (Return tt, mkCrawl (allJobsMap c) n loads
                                 (console c ++ [NoJobsOnPage]))
        else
          let m := merge (allJobsMap c) jobs in
          if decide (length jobs < PAGE_SIZE cfg)
          then (Return tt, mkCrawl m n loads (console c ++ [ShortPage]))
          else crawl_offset cfg site (S pageIndex) (mkCrawl m n loads (console c))
    end
  else (Return tt, c).
Proof.
  rewrite crawl_offset_equation_1. unfold crawl_offset_unfold_clause_1.
  destruct (decide (pageIndex < MAX_PAGES cfg)); reflexivity.
Qed.

Lemma next_loop_post cfg site nexts k :
  forall p c, S (MAX_PAGES cfg) - p <= k ->
    let c' := (next_loop cfg site nexts p c).2 in
    (exists d l, iterations c' = iterations c + d
                 /\ length (visited c') = length (visited c) + l
                 /\ l <= d /\ d <= S (MAX_PAGES cfg) - p)
    /\ (crawl_inv site c -> crawl_inv site c').
Proof.
  induction k as [|k IH]; intros p c Hk; rewrite next_loop_unfold.
  { rewrite decide_False by lia. simpl. split; [exists 0, 0; lia|done]. }
  destruct (decide (p <= MAX_PAGES cfg)) as [Hp|Hp];
    [|simpl; split; [exists 0, 0; lia|done]].
  cbv zeta. destruct (negb _ || negb _).
  { simpl. split; [exists 1, 0; lia|done]. }
  assert (Hsnoc : crawl_inv site c ->
            aggregates scrapePage site
              (merge_jobs (allJobsMap c)
                 (batch_of (scrapePage (site (length (visited c)) CurrentUrl))))
              (visited c ++ [CurrentUrl])).
  { apply aggregates_snoc. }
  destruct (scrapePage (site (length (visited c)) CurrentUrl)) as [more|e];
    simpl in Hsnoc.
  2:{ simpl. rewrite length_app. simpl. split; [exists 1, 1; lia|done]. }
  destruct (decide (length more = 0)) as [Hz|Hnz].
  { simpl. rewrite length_app. simpl. split; [exists 1, 1; lia|].
    by destruct more. }
  destruct (decide (map_size _ = _)).
  { simpl. rewrite length_app. simpl. split; [exists 1, 1; lia|done]. }
  specialize (IH (S p) (mkCrawl (merge (allJobsMap c) more) (S (iterations c))
                          (visited c ++ [CurrentUrl]) (console c)) ltac:(lia)).
  cbv zeta in IH. simpl in IH. rewrite length_app in IH. simpl in IH.
  destruct IH as ((d & l & H1 & H2 & H3 & H4) & H5).
  split; [exists (S d), (S l); lia|]. intros Hinv. by apply H5, Hsnoc.
Qed.

Lemma crawl_offset_post cfg site k :
  forall i c, MAX_PAGES cfg - i <= k ->
    let c' := (crawl_offset cfg site i c).2 in
    (exists d, iterations c' = iterations c + d
               /\ length (visited c') = length (visited c) + d
               /\ d <= MAX_PAGES cfg - i)
    /\ (crawl_inv site c -> crawl_inv site c').
Proof.
  induction k as [|k IH]; intros i c Hk; rewrite crawl_offset_unfold.
  { rewrite decide_False by lia. simpl. split; [exists 0; lia|done]. }
  destruct (decide (i < MAX_PAGES cfg)) as [Hp|Hp];
    [|simpl; split; [exists 0; lia|done]].
  cbv zeta.
  set (url := if decide (i * PAGE_SIZE cfg = 0) then BaseUrl
              else FromUrl (i * PAGE_SIZE cfg)).
  assert (Hsnoc : crawl_inv site c ->
            aggregates scrapePage site
              (merge_jobs (allJobsMap c)
                 (batch_of (scrapePage (site (length (visited c)) url))))
              (visited c ++ [url])).
  { apply aggregates_snoc. }
  destruct (scrapePage (site (length (visited c)) url)) as [jobs|e];
    simpl in Hsnoc.
  2:{ simpl. rewrite length_app. simpl. split; [exists 1; lia|done]. }
  destruct (decide (length jobs = 0)) as [Hz|Hnz].
  { simpl. rewrite length_app. simpl. split; [exists 1; lia|].
    by destruct jobs. }
  destruct (decide (length jobs < _)).
  { simpl. rewrite length_app. simpl. split; [exists 1; lia|done]. }
  specialize (IH (S i) (mkCrawl (merge (allJobsMap c) jobs) (S (iterations c))
                          (visited c ++ [url]) (console c)) ltac:(lia)).
  cbv zeta in IH. simpl in IH. rewrite length_app in IH. simpl in IH.
  destruct IH as ((d & H1 & H2 & H3) & H5).
  split; [exists (S d); lia|]. intros Hinv. by apply H5, Hsnoc.
Qed.

End Part001Loop.

(** C4. The 'next' pagination of part_001. An iteration that finds the
    "next" control absent or not enabled is the last one, and loads
    nothing; so is an iteration whose page comes back empty; and so is one
    whose batch, once merged, has added no new link to [allJobsMap]. The
    loop makes at most [MAX_PAGES - 1] iterations, each loading at most
    one page after the first page of the crawl. *)
Theorem next_button_pagination_stops cfg site nexts :
  (forall p c, p <= Part001.MAX_PAGES cfg ->
     next_count (nexts p) = 0 \/ next_isEnabled (nexts p) ≠ Some true ->
     Part001.next_loop cfg site nexts p c
     = (Return tt,
        Part001.mkCrawl (Part001.allJobsMap c) (S (Part001.iterations c))
          (Part001.visited c) (Part001.console c ++ [NoNextButton])))
  /\ (forall p c, p <= Part001.MAX_PAGES cfg -> next_usable (nexts p) ->
     Part001.scrapePage (site (length (Part001.visited c)) CurrentUrl) = Return [] ->
     Part001.next_loop cfg site nexts p c
     = (Return tt,
        Part001.mkCrawl (Part001.allJobsMap c) (S (Part001.iterations c))
          (Part001.visited c ++ [CurrentUrl])
          (Part001.console c ++ [NoJobsOnPage])))
  /\ (forall p c more, p <= Part001.MAX_PAGES cfg -> next_usable (nexts p) ->
     Part001.scrapePage (site (length (Part001.visited c)) CurrentUrl) = Return more ->
     more ≠ [] ->
     Forall (fun j => raw_href j ∈ map_keys (Part001.allJobsMap c)) more ->
     Part001.next_loop cfg site nexts p c
     = (Return tt,
        Part001.mkCrawl (Part001.merge (Part001.allJobsMap c) more)
          (S (Part001.iterations c)) (Part001.visited c ++ [CurrentUrl])
          (Part001.console c ++ [NoNewJobs])))
  /\ (Part001.PAGINATION_MODE cfg = js "next" ->
      forall now,
        let c := (Part001.scrapeAll cfg site nexts now).2 in
        Part001.iterations c <= Part001.MAX_PAGES cfg - 1
        /\ length (Part001.visited c) <= S (Part001.iterations c)).
Proof.
  split; [|split; [|split]].
  - intros p c Hp Hnext. rewrite next_loop_unfold, decide_True by done.
    cbv zeta.
    destruct (nexts p) as [cnt en]. simpl in *.
    destruct Hnext as [->|Hen]; [done|].
    destruct (bool_decide (0 < cnt)); [|done].
    by destruct en as [[]|].
  - intros p c Hp [Hcnt Hen] Hpage.
    rewrite next_loop_unfold, decide_True by done. cbv zeta.
    rewrite Hen, bool_decide_true by done. simpl. by rewrite Hpage.
  - intros p c more Hp [Hcnt Hen] Hpage Hne Hold.
    rewrite next_loop_unfold, decide_True by done. cbv zeta.
    rewrite Hen, bool_decide_true by done. simpl. rewrite Hpage.
    rewrite decide_False by (by destruct more).
    rewrite decide_True; [done|]. by apply merge_jobs_same_size.
  - intros Hmode now. unfold Part001.scrapeAll.
    rewrite decide_True by done. unfold Part001.crawl_next.
    destruct (Part001.scrapePage (site 0 BaseUrl)) as [jobs|e];
      [|simpl; lia].
    set (c0 := Part001.mkCrawl _ _ _ _).
    destruct (next_loop_post cfg site nexts (S (Part001.MAX_PAGES cfg)) 2 c0
                ltac:(lia)) as [(d & l & Hd & Hl & Hld & Hmax) _].
    cbv zeta in *.
    destruct (Part001.next_loop cfg site nexts 2 c0) as [[[]|e] c'];
      simpl in *; lia.
Qed.

Lemma next_button_pagination_stops_witness :
  (Part001.next_loop (Examples.next_config 60) Examples.same_page_site
     Examples.next_absent 2 after_first_page).2.(Part001.console) = [NoNextButton]
  /\ (Part001.next_loop (Examples.next_config 60) Examples.blank_site
        Examples.next_enabled 2 after_first_page).2.(Part001.console) = [NoJobsOnPage]
  /\ (Part001.next_loop (Examples.next_config 60) Examples.same_page_site
        Examples.next_enabled 2 after_first_page).2.(Part001.console) = [NoNewJobs]
  /\ (Part001.iterations
        (Part001.scrapeAll (Examples.next_config 60) Examples.same_page_site
           Examples.next_enabled 0).2
      <= Part001.MAX_PAGES (Examples.next_config 60) - 1
      /\ length (Part001.visited
           (Part001.scrapeAll (Examples.next_config 60) Examples.same_page_site
              Examples.next_enabled 0).2)
         <= S (Part001.iterations
                (Part001.scrapeAll (Examples.next_config 60)
                   Examples.same_page_site Examples.next_enabled 0).2)).
Proof.
  split; [|split; [|split]].
  - rewrite (proj1 (next_button_pagination_stops (Examples.next_config 60)
                      Examples.same_page_site Examples.next_absent)
               2 after_first_page); [reflexivity|vm_compute; lia|by left].
  - rewrite (proj1 (proj2 (next_button_pagination_stops (Examples.next_config 60)
                      Examples.blank_site Examples.next_enabled))
               2 after_first_page); [reflexivity|vm_compute; lia| |reflexivity].
    split; [vm_compute; lia|reflexivity].
  - rewrite (proj1 (proj2 (proj2 (next_button_pagination_stops
                      (Examples.next_config 60)
                      Examples.same_page_site Examples.next_enabled)))
               2 after_first_page ten_jobs);
      [reflexivity|vm_compute; lia| |reflexivity|by vm_compute|].
    + split; [vm_compute; lia|reflexivity].
    + apply (bool_decide_unpack _). by vm_compute.
  - exact (proj2 (proj2 (proj2 (next_button_pagination_stops
                      (Examples.next_config 60)
                      Examples.same_page_site Examples.next_enabled)))
             eq_refl 0%Z).
Defined.

(* ================================================================== *)
(** * Crawl aggregator                                              *)
(* ================================================================== *)

Section Aggregator.

Lemma keyed_nil : keyed [].
Proof. constructor. Qed.

Lemma values_entry (m : JsMap RawJob) v :
  v ∈ map_values m -> exists k, (k, v) ∈ m.
Proof.
  unfold map_values. intros ([k v'] & -> & Hin)%list_elem_of_fmap. by exists k.
Qed.

Lemma snapshot_of_merge (to_job : RawJob -> Job) (all : list RawJob) :
  (forall j, href (to_job j) = raw_href j) ->
  let js := to_job <$> map_values (merge_jobs [] all) in
  NoDup (href <$> js)
  /\ href <$> js = first_sightings (raw_href <$> all)
  /\ (forall job, job ∈ js ->
        exists raw, last_with_link (href job) all = Some raw /\ job = to_job raw).
Proof.
  intros Hhref. cbv zeta. set (m := merge_jobs [] all).
  assert (Hkeyed : keyed m) by apply merge_jobs_keyed, keyed_nil.
  assert (Hnd : NoDup (map_keys m)) by apply merge_jobs_NoDup, NoDup_nil_2.
  assert (Hkeys : href <$> (to_job <$> map_values m) = map_keys m).
  { rewrite <- list_fmap_compose, <- (keyed_values_keys m Hkeyed).
    apply list_fmap_ext. intros _ j _. apply Hhref. }
  split; [by rewrite Hkeys|]. split.
  - rewrite Hkeys. unfold m. by rewrite merge_jobs_keys.
  - intros job (v & -> & Hv)%list_elem_of_fmap.
    destruct (values_entry m v Hv) as [k Hk].
    assert (Hvk : raw_href v = k).
    { by apply (proj1 (Forall_forall _ _) Hkeyed (k, v)). }
    assert (Hget := map_get_entry k v m Hnd Hk).
    unfold m in Hget. rewrite merge_jobs_get in Hget. simpl in Hget.
    rewrite Hhref, Hvk. exists v.
    by destruct (last_with_link k all) as [j|]; [injection Hget as ->|].
Qed.

Lemma elem_of_unseen (k : list N) (seen ks : list (list N)) :
  k ∈ unseen seen ks <-> k ∈ ks /\ k ∉ seen.
Proof.
  revert seen. induction ks as [|a r IH]; intros seen; simpl.
  - split; [by intros ?%elem_of_nil|by intros [?%elem_of_nil _]].
  - destruct (decide (a ∈ seen)) as [Ha|Ha].
    + rewrite IH, elem_of_cons. split.
      * intros [? ?]. split; [by right|done].
      * intros [[-> | ?] ?]; done.
    + rewrite !elem_of_cons, IH, elem_of_app, list_elem_of_singleton. split.
      * intros [-> | [Hr Hn]]; [by split; [left|]|].
        split; [by right|]. intros Hs. apply Hn. by left.
      * intros [[-> | Hr] Hn]; [by left|].
        destruct (decide (k = a)) as [-> | Hne]; [by left|].
        right. split; [done|]. by intros [? | ?].
Qed.

Lemma unseen_NoDup (seen ks : list (list N)) : NoDup (unseen seen ks).
Proof.
  revert seen. induction ks as [|a r IH]; intros seen; simpl; [constructor|].
  destruct (decide (a ∈ seen)); [apply IH|].
  constructor; [|apply IH]. rewrite elem_of_unseen, elem_of_app.
  intros [_ Hn]. apply Hn. right. apply list_elem_of_here.
Qed.

(** The first sightings of a sequence are its elements, once each. *)
Lemma first_sightings_elements (ks : list (list N)) :
  NoDup (first_sightings ks) /\ forall k, k ∈ first_sightings ks <-> k ∈ ks.
Proof.
  split; [apply unseen_NoDup|]. intros k. unfold first_sightings.
  rewrite elem_of_unseen. split; [by intros [? _]|].
  intros Hk. split; [done|]. apply not_elem_of_nil.
Qed.

Lemma first_sightings_NoDup_example :
  first_sightings [js "a"; js "b"; js "a"; js "c"; js "b"]
  = [js "a"; js "b"; js "c"].
Proof. by vm_compute. Qed.

End Aggregator.

Section IndexJsAggregates.
Import IndexJs.

Lemma index_js_crawl_loop_aggregates fuel :
  forall site pageOffset c r c',
    crawl_loop fuel site pageOffset c = Some (r, c') ->
    aggregates scrapePage site (allJobsMap c) (visited c) ->
    aggregates scrapePage site (allJobsMap c') (visited c').
Proof.
  induction fuel as [|fuel IH]; intros site pageOffset c r c' Hrun Hagg; [done|].
  cbn [crawl_loop visited allJobsMap] in Hrun.
  set (url := if decide (pageOffset = 0) then BaseUrl else FromUrl pageOffset) in *.
  assert (Hsnoc := aggregates_snoc scrapePage site _ _ url Hagg).
  destruct (scrapePage (site (length (visited c)) url)) as [jobs|e];
    simpl in Hsnoc.
  - destruct (decide (length jobs = 0)) as [Hz|Hnz].
    { injection Hrun as _ <-. simpl. by destruct jobs. }
    destruct (decide (length jobs < PAGE_SIZE)).
    { by injection Hrun as _ <-. }
    by eapply IH.
  - by injection Hrun as _ <-.
Qed.

Lemma index_js_scrapeJobs_payload fuel site now p c :
  scrapeJobs fuel site now = Some (Return p, c) ->
  p = build_payload now (allJobsMap c)
  /\ aggregates scrapePage site (allJobsMap c) (visited c).
Proof.
  unfold scrapeJobs.
  destruct (crawl_loop fuel site 0 (mkCrawl [] [])) as [[[[]|e] c0]|] eqn:Hloop;
    [|done..].
  intros [= <- <-]. split; [done|].
  by eapply index_js_crawl_loop_aggregates.
Qed.

End IndexJsAggregates.

Lemma part_000_scrapeJobs_payload site now p c :
  Part000.scrapeJobs site now = (Return p, c) ->
  p = Part000.build_payload now (Part000.allJobsMap c)
  /\ aggregates Part000.scrapePage site (Part000.allJobsMap c) (Part000.visited c).
Proof.
  destruct (part_000_pagination site now) as ((n & _ & _ & _ & Hagg & _) & Heq & _).
  cbv zeta in Hagg. rewrite <- Heq in Hagg.
  unfold Part000.scrapeJobs in *.
  destruct (Part000.crawl_loop site 0 _) as [[[]|e] c0]; [|done].
  by intros [= <- <-].
Qed.

Lemma part_001_scrapeAll_payload cfg site nexts now p c :
  Part001.scrapeAll cfg site nexts now = (Return p, c) ->
  p = Part001.build_payload cfg now (Part001.allJobsMap c)
  /\ aggregates Part001.scrapePage site (Part001.allJobsMap c) (Part001.visited c).
Proof.
  unfold Part001.scrapeAll.
  assert (Hc : crawl_inv site
            (if decide (Part001.PAGINATION_MODE cfg = js "next")
             then Part001.crawl_next cfg site nexts
             else Part001.crawl_offset cfg site 0 (Part001.mkCrawl [] 0 [] [])).2).
  { case_decide.
    - unfold Part001.crawl_next.
      assert (Hfirst := aggregates_snoc Part001.scrapePage site [] [] BaseUrl
                          (aggregates_nil _ _)).
      simpl in Hfirst.
      destruct (Part001.scrapePage (site 0 BaseUrl)) as [jobs|e]; [|done].
      by apply (proj2 (next_loop_post cfg site nexts (S (Part001.MAX_PAGES cfg))
                         2 _ ltac:(lia))).
    - by apply (proj2 (crawl_offset_post cfg site (Part001.MAX_PAGES cfg)
                         0 _ ltac:(lia))). }
  destruct (if decide _ then _ else _) as [[[]|e] c0]; [|done].
  by intros [= <- <-].
Qed.

Lemma snapshot_of_build (to_job : RawJob -> Job) (all : list RawJob)
    (now : Z) (src : list N) :
  (forall j, href (to_job j) = raw_href j) ->
  snapshot_of to_job all
    (mkPayload now src (length (map_values (merge_jobs [] all)))
               (to_job <$> map_values (merge_jobs [] all))).
Proof.
  intros Hhref.
  destruct (snapshot_of_merge to_job all Hhref) as (Hnd & Hord & Hlast).
  unfold snapshot_of. simpl. by rewrite length_fmap.
Qed.

(** C7. The snapshot the aggregator assembles from any sequence of page
    batches holds each link once, in the order in which the links were
    first seen, each record being the normalised last write for its link,
    and its [count] is the length of its [jobs]; this holds of every
    snapshot that [scrapeJobs] (index.js, part_000) or [scrapeAll]
    (part_001) returns, for the batches of the pages it loaded. *)
Theorem crawl_aggregator_snapshot :
  (forall (batches : list (list RawJob)) now,
      snapshot_of IndexJs.to_job (concat batches)
        (IndexJs.build_payload now (foldl IndexJs.merge [] batches))
      /\ snapshot_of Part000.to_job (concat batches)
           (Part000.build_payload now (foldl Part000.merge [] batches)))
  /\ (forall fuel site now p c,
        IndexJs.scrapeJobs fuel site now = Some (Return p, c) ->
        snapshot_of IndexJs.to_job
          (concat (page_batches IndexJs.scrapePage site (IndexJs.visited c))) p)
  /\ (forall site now p c,
        Part000.scrapeJobs site now = (Return p, c) ->
        snapshot_of Part000.to_job
          (concat (page_batches Part000.scrapePage site (Part000.visited c))) p)
  /\ (forall cfg site nexts now p c,
        Part001.scrapeAll cfg site nexts now = (Return p, c) ->
        snapshot_of Part001.to_job
          (concat (page_batches Part001.scrapePage site (Part001.visited c))) p).
Proof.
  split; [|split; [|split]].
  - intros batches now.
    change IndexJs.merge with merge_jobs. change Part000.merge with merge_jobs.
    rewrite merge_jobs_batches. split; by apply snapshot_of_build.
  - intros fuel site now p c [-> Hagg]%index_js_scrapeJobs_payload.
    rewrite Hagg. by apply snapshot_of_build.
  - intros site now p c [-> Hagg]%part_000_scrapeJobs_payload.
    rewrite Hagg. by apply snapshot_of_build.
  - intros cfg site nexts now p c [-> Hagg]%part_001_scrapeAll_payload.
    rewrite Hagg. unfold Part001.build_payload. rewrite length_fmap.
    by apply snapshot_of_build.
Qed.

Lemma crawl_aggregator_snapshot_witness :
  match IndexJs.scrapeJobs 2 Examples.two_page_site 1000 with
  | Some (Return p, c) =>
      snapshot_of IndexJs.to_job
        (concat (page_batches IndexJs.scrapePage Examples.two_page_site
                   (IndexJs.visited c))) p
  | _ => False
  end
  /\ match Part000.scrapeJobs Examples.two_page_site 1000 with
     | (Return p, c) =>
         snapshot_of Part000.to_job
           (concat (page_batches Part000.scrapePage Examples.two_page_site
                      (Part000.visited c))) p
     | _ => False
     end
  /\ match Part001.scrapeAll (Examples.next_config 60) Examples.same_page_site
             Examples.next_enabled 1000 with
     | (Return p, c) =>
         snapshot_of Part001.to_job
           (concat (page_batches Part001.scrapePage Examples.same_page_site
                      (Part001.visited c))) p
     | _ => False
     end.
Proof.
  split; [|split].
  - destruct (IndexJs.scrapeJobs 2 Examples.two_page_site 1000)
      as [[[p|e] c]|] eqn:Hrun.
    + exact (proj1 (proj2 crawl_aggregator_snapshot) _ _ _ _ _ Hrun).
    + vm_compute in Hrun. discriminate Hrun.
    + vm_compute in Hrun. discriminate Hrun.
  - destruct (Part000.scrapeJobs Examples.two_page_site 1000)
      as [[p|e] c] eqn:Hrun.
    + exact (proj1 (proj2 (proj2 crawl_aggregator_snapshot)) _ _ _ _ Hrun).
    + vm_compute in Hrun. discriminate Hrun.
  - destruct (Part001.scrapeAll (Examples.next_config 60) Examples.same_page_site
                Examples.next_enabled 1000) as [[p|e] c] eqn:Hrun.
    + exact (proj2 (proj2 (proj2 crawl_aggregator_snapshot)) _ _ _ _ _ _ Hrun).
    + vm_compute in Hrun. discriminate Hrun.
Defined.

(* ================================================================== *)
(** * Records without a link or a title                             *)
(* ================================================================== *)

Section ValidRecords.









End ValidRecords.



(** The other fields of a record may well be empty. *)
Lemma snapshot_fields_may_be_empty :
  match Part000.scrapeJobs Examples.two_jobs_site 1000 with
  | (Return p, _) => (fun j => (location j, category j, team j)) <$> jobs p
  | _ => []
  end = [([], [], []); ([], [], [])].
Proof. vm_compute. reflexivity. Qed.

(* ================================================================== *)
(** * More on the text normaliser                                   *)
(* ================================================================== *)

Section MoreText.

#[local] Arguments is_ws : simpl never.

Implicit Types (s t : list N) (c : N).

Lemma visible_replace_ws_from b s :
  filter visible (replace_ws_from b s) = filter visible s.
Proof.
  revert b. induction s as [|c t IH]; intros b; [done|]. simpl.
  destruct (is_ws c) eqn:Hc.
  - rewrite (filter_cons_False _ c) by (unfold visible; congruence).
    destruct b; [apply IH|].
    rewrite filter_cons_False by (unfold visible; rewrite is_ws_SP; congruence).
    apply IH.
  - rewrite !filter_cons_True by done. by rewrite IH.
Qed.

Lemma visible_trimStart s : filter visible (trimStart s) = filter visible s.
Proof.
  induction s as [|c t IH]; [done|]. simpl. destruct (is_ws c) eqn:Hc; [|done].
  by rewrite filter_cons_False by (unfold visible; congruence).
Qed.

Lemma visible_trimEnd s : filter visible (trimEnd s) = filter visible s.
Proof.
  induction s as [|c t IH]; [done|]. simpl.
  destruct (trimEnd t) as [|c' r] eqn:Ht.
  - destruct (is_ws c) eqn:Hc.
    + by rewrite filter_cons_False, <- IH by (unfold visible; congruence).
    + by rewrite !filter_cons_True, <- IH by done.
  - by rewrite (filter_cons _ c (c' :: r)), (filter_cons _ c t), IH.
Qed.

Lemma length_replace_ws_from b s : length (replace_ws_from b s) <= length s.
Proof.
  revert b. induction s as [|c t IH]; intros b; [done|]. simpl.
  pose proof (IH true). pose proof (IH false).
  destruct (is_ws c); [destruct b|]; simpl; lia.
Qed.

Lemma length_trimStart s : length (trimStart s) <= length s.
Proof. induction s as [|c t IH]; [done|]. simpl. destruct (is_ws c); simpl; lia. Qed.

Lemma length_trimEnd s : length (trimEnd s) <= length s.
Proof.
  induction s as [|c t IH]; [done|]. simpl.
  destruct (trimEnd t); [destruct (is_ws c)|]; simpl in *; lia.
Qed.

Lemma trimEnd_idem s : trimEnd (trimEnd s) = trimEnd s.
Proof.
  induction s as [|c t IH]; [done|]. simpl.
  destruct (trimEnd t) as [|c' r] eqn:Ht.
  - destruct (is_ws c) eqn:Hc; [done|]. simpl. by rewrite Hc.
  - change (trimEnd (c :: c' :: r)) with
      (match trimEnd (c' :: r) with
       | [] => if is_ws c then [] else [c]
       | r' => c :: r'
       end).
    by rewrite IH.
Qed.

Lemma trimStart_visible s : starts_visible s -> trimStart s = s.
Proof. destruct s as [|c t]; [done|]. simpl. by intros ->. Qed.

Lemma trim_starts_visible s : starts_visible (trim s).
Proof. destruct (trim s) as [|c r] eqn:Hs; [done|]. by eapply trim_head. Qed.

Lemma trim_idem s : trim (trim s) = trim s.
Proof.
  unfold trim at 1. rewrite trimStart_visible by apply trim_starts_visible.
  unfold trim. apply trimEnd_idem.
Qed.

End MoreText.

Section Collapsed.

#[local] Arguments is_ws : simpl never.

Implicit Types (s t : list N) (c : N).

Lemma collapsed_replace_ws_from b s :
  collapsed (replace_ws_from b s)
  /\ (b = true -> starts_visible (replace_ws_from b s)).
Proof.
  revert b. induction s as [|c t IH]; intros b; [done|]. simpl.
  destruct (is_ws c) eqn:Hc.
  - destruct b.
    + apply IH.
    + split; [|done]. simpl. split; [|apply IH].
      intros _. split; [done|]. by apply IH.
  - split; [|done]. simpl. split; [congruence|apply IH].
Qed.

Lemma collapsed_app_l s t : collapsed (s ++ t) -> collapsed s.
Proof.
  induction s as [|c s IH]; [done|]. simpl. intros [Hc Hs].
  split; [|by apply IH]. intros Hws. destruct (Hc Hws) as [-> Hv].
  split; [done|]. by destruct s.
Qed.

Lemma collapsed_app_r s t : collapsed (s ++ t) -> collapsed t.
Proof. induction s as [|c s IH]; [done|]. simpl. intros [_ Hs]. by apply IH. Qed.

Lemma trimStart_suffix s : exists pre, s = pre ++ trimStart s.
Proof.
  induction s as [|c t [pre IH]]; [by exists []|]. simpl.
  destruct (is_ws c); [|by exists []]. exists (c :: pre). simpl. by rewrite <- IH.
Qed.

Lemma trimEnd_prefix s : exists rest, s = trimEnd s ++ rest.
Proof.
  induction s as [|c t [rest IH]]; [by exists []|]. simpl.
  destruct (trimEnd t) as [|c' r] eqn:Ht.
  - destruct (is_ws c); [by exists (c :: t)|]. exists rest. simpl in *. by f_equal.
  - exists rest. simpl in *. by f_equal.
Qed.

Lemma collapsed_trim s : collapsed s -> collapsed (trim s).
Proof.
  intros Hs. unfold trim.
  destruct (trimStart_suffix s) as [pre Hpre].
  destruct (trimEnd_prefix (trimStart s)) as [rest Hrest].
  rewrite Hpre in Hs. apply collapsed_app_r in Hs.
  rewrite Hrest in Hs. by apply collapsed_app_l in Hs.
Qed.

Lemma elem_of_trim c s : c ∈ trim s -> c ∈ s.
Proof.
  unfold trim.
  destruct (trimStart_suffix s) as [pre Hpre].
  destruct (trimEnd_prefix (trimStart s)) as [rest Hrest].
  intros Hin. rewrite Hpre, Hrest, !elem_of_app. auto.
Qed.

(** A collapsed string is what [replace] leaves alone. *)
Lemma replace_ws_from_collapsed s :
  collapsed s ->
  replace_ws_from false s = s
  /\ (starts_visible s -> replace_ws_from true s = s).
Proof.
  induction s as [|c t IH]; [done|]. simpl. intros [Hc Ht].
  destruct (IH Ht) as [IH1 IH2]. destruct (is_ws c) eqn:Hws.
  - destruct (Hc eq_refl) as [-> Hv]. split; [|done]. by rewrite IH2.
  - by rewrite IH1.
Qed.

Lemma normalised_fixed s :
  collapsed s -> trim s = s -> trim (replace_ws s) = s.
Proof.
  intros Hc Ht. unfold replace_ws.
  by rewrite (proj1 (replace_ws_from_collapsed s Hc)).
Qed.

Lemma collapsed_normalised s : collapsed (trim (replace_ws s)).
Proof. apply collapsed_trim, collapsed_replace_ws_from. Qed.

Lemma split_nonempty sep s : split sep s ≠ [].
Proof.
  destruct s as [|c t]; [done|]. simpl.
  destruct (c =? sep)%N; [done|]. by destruct (split sep t).
Qed.

Lemma split_hd_starts_visible sep s :
  starts_visible s -> starts_visible (default [] (head (split sep s))).
Proof.
  destruct s as [|c t]; [done|]. simpl. intros Hc.
  destruct (c =? sep)%N; [done|]. by destruct (split sep t).
Qed.

Lemma collapsed_split sep s :
  collapsed s -> Forall collapsed (split sep s).
Proof.
  induction s as [|c t IH]; [by repeat constructor|]. simpl. intros [Hc Ht].
  specialize (IH Ht). destruct (c =? sep)%N; [by constructor|].
  assert (Hhd := split_hd_starts_visible sep t).
  destruct (split sep t) as [|h r] eqn:Hsp; [by apply split_nonempty in Hsp|].
  inversion IH; subst. constructor; [|done]. simpl. split; [|done].
  intros Hws. destruct (Hc Hws) as [-> Hv]. split; [done|]. by apply Hhd.
Qed.

Lemma split_no_sep sep s :
  Forall (fun seg => sep ∉ seg) (split sep s).
Proof.
  induction s as [|c t IH]; [repeat constructor; apply not_elem_of_nil|].
  simpl. destruct (c =? sep)%N eqn:Hc.
  - constructor; [apply not_elem_of_nil|done].
  - apply N.eqb_neq in Hc.
    destruct (split sep t) as [|h r] eqn:Hsp; [by apply split_nonempty in Hsp|].
    inversion IH; subst. constructor; [|done].
    by intros [?|?]%elem_of_cons.
Qed.

Lemma split_without_sep sep s : sep ∉ s -> split sep s = [s].
Proof.
  induction s as [|c t IH]; [done|]. intros Hnot. simpl.
  rewrite (proj2 (N.eqb_neq c sep)) by (intros ->; apply Hnot; left).
  rewrite IH; [done|]. intros Hin. apply Hnot. by right.
Qed.

End Collapsed.

Section Country.

Lemma country_like_nil : country_like [].
Proof. split; [done|]. split; [done|]. apply not_elem_of_nil. Qed.

Lemma parts_country_like (x : option (list N)) :
  Forall country_like (trim <$> split COMMA (trim (replace_ws (or_empty x)))).
Proof.
  apply Forall_fmap, Forall_forall. intros seg Hseg.
  assert (Hc := proj1 (Forall_forall _ _)
                  (collapsed_split COMMA _ (collapsed_normalised (or_empty x)))
                  seg Hseg).
  assert (Hn := proj1 (Forall_forall _ _) (split_no_sep COMMA _) seg Hseg).
  split; [by apply collapsed_trim|]. split; [apply trim_idem|].
  intros Hin. by apply Hn, elem_of_trim.
Qed.

Lemma last_country_like (L : list (list N)) :
  Forall country_like L -> country_like (default [] (last L)).
Proof.
  intros HL. destruct (last L) as [r|] eqn:Hlast; [|apply country_like_nil].
  apply last_Some_elem_of in Hlast. by apply (proj1 (Forall_forall _ _) HL).
Qed.

Lemma Forall_filter_keep {A : Type} (P Q : A -> Prop)
    `{forall a, Decision (Q a)} (l : list A) :
  Forall P l -> Forall P (filter Q l).
Proof.
  intros Hl. apply Forall_forall. intros a [_ Hin]%list_elem_of_filter.
  by apply (proj1 (Forall_forall _ _) Hl).
Qed.

Lemma extractCountry_country_like (x : option (list N)) :
  country_like (IndexJs.extractCountry x)
  /\ country_like (Part000.extractCountry x)
  /\ country_like (Part001.extractCountry x).
Proof.
  assert (HL := parts_country_like x).
  unfold IndexJs.extractCountry, Part000.extractCountry, Part001.extractCountry,
    IndexJs.normaliseText, Part000.norm, Part001.norm. cbv zeta.
  split; [|split].
  - case_decide; [by apply last_country_like|apply country_like_nil].
  - case_decide; [apply country_like_nil|].
    apply last_country_like. by apply Forall_filter_keep.
  - case_decide; [apply country_like_nil|].
    apply last_country_like. by apply Forall_filter_keep.
Qed.

Lemma extractCountry_of_country_like (r : list N) :
  country_like r ->
  IndexJs.extractCountry (Some r) = r
  /\ Part000.extractCountry (Some r) = r
  /\ Part001.extractCountry (Some r) = r.
Proof.
  intros (Hc & Ht & Hn).
  unfold IndexJs.extractCountry, Part000.extractCountry, Part001.extractCountry,
    IndexJs.normaliseText, Part000.norm, Part001.norm. cbv zeta. simpl or_empty.
  rewrite normalised_fixed, split_without_sep by done. simpl fmap. rewrite Ht.
  split; [done|].
  destruct r as [|c r]; [done|].
  rewrite filter_cons_True by done. done.
Qed.

End Country.

(** X1. The normaliser of each script keeps every visible (non-whitespace)
    character of its input, in order, and never returns a longer string
    than it was given. *)
Theorem normaliser_keeps_visible_text (s : option (list N)) :
  (filter visible (IndexJs.normaliseText s) = filter visible (or_empty s)
   /\ length (IndexJs.normaliseText s) <= length (or_empty s))
  /\ (filter visible (Part000.norm s) = filter visible (or_empty s)
      /\ length (Part000.norm s) <= length (or_empty s))
  /\ (filter visible (Part001.norm s) = filter visible (or_empty s)
      /\ length (Part001.norm s) <= length (or_empty s)).
Proof.
  assert (H : filter visible (trim (replace_ws (or_empty s)))
              = filter visible (or_empty s)
              /\ length (trim (replace_ws (or_empty s))) <= length (or_empty s)).
  { unfold trim, replace_ws. split.
    - by rewrite visible_trimEnd, visible_trimStart, visible_replace_ws_from.
    - etrans; [apply length_trimEnd|]. etrans; [apply length_trimStart|].
      apply length_replace_ws_from. }
  done.
Qed.

(** X2. The country each script derives never contains a comma and is
    itself normalised: normalising it again changes nothing. *)
Theorem country_has_no_comma_and_is_normalised (x : option (list N)) :
  ((COMMA ∉ IndexJs.extractCountry x)
   /\ IndexJs.normaliseText (Some (IndexJs.extractCountry x))
      = IndexJs.extractCountry x)
  /\ ((COMMA ∉ Part000.extractCountry x)
      /\ Part000.norm (Some (Part000.extractCountry x))
         = Part000.extractCountry x)
  /\ ((COMMA ∉ Part001.extractCountry x)
      /\ Part001.norm (Some (Part001.extractCountry x))
         = Part001.extractCountry x).
Proof.
  destruct (extractCountry_country_like x)
    as ((Hc1 & Ht1 & Hn1) & (Hc2 & Ht2 & Hn2) & (Hc3 & Ht3 & Hn3)).
  unfold IndexJs.normaliseText, Part000.norm, Part001.norm. simpl or_empty.
  by rewrite !normalised_fixed.
Qed.

(** X3. Extracting the country of a country gives it back, in each
    script. *)
Theorem extractCountry_idempotent (x : option (list N)) :
  IndexJs.extractCountry (Some (IndexJs.extractCountry x))
    = IndexJs.extractCountry x
  /\ Part000.extractCountry (Some (Part000.extractCountry x))
     = Part000.extractCountry x
  /\ Part001.extractCountry (Some (Part001.extractCountry x))
     = Part001.extractCountry x.
Proof.
  destruct (extractCountry_country_like x) as (H1 & H2 & H3).
  split; [|split].
  - apply (extractCountry_of_country_like _ H1).
  - apply (extractCountry_of_country_like _ H2).
  - apply (extractCountry_of_country_like _ H3).
Qed.

(** X4. index.js and the two later scripts disagree on a country only
    where index.js returns the empty string: a non-empty country of
    index.js is the country the others return. *)
Theorem index_js_country_agrees_unless_empty (x : option (list N)) :
  IndexJs.extractCountry x = []
  \/ (IndexJs.extractCountry x = Part000.extractCountry x
      /\ IndexJs.extractCountry x = Part001.extractCountry x).
Proof.
  unfold IndexJs.extractCountry, Part000.extractCountry, Part001.extractCountry,
    IndexJs.normaliseText, Part000.norm, Part001.norm. cbv zeta.
  set (L := trim <$> split COMMA _).
  case_decide; [|by left].
  destruct (last L) as [r|] eqn:Hlast; [|by left]. simpl.
  destruct (decide (r = [])) as [->|Hr]; [by left|]. right.
  apply last_Some in Hlast as [L' ->].
  rewrite filter_app, filter_cons_True, filter_nil, last_snoc by done.
  rewrite decide_False; [done|]. rewrite length_app. simpl. lia.
Qed.

(* ================================================================== *)
(** * The batch of one page                                         *)
(* ================================================================== *)

Section PageBatch.






End PageBatch.



(** The record kept for a repeated link is the last one on the page. *)
Lemma duplicate_links_last_title_wins :
  (fun j => (raw_href j, raw_title j))
    <$> batch_of (Part000.scrapePage duplicate_links_page)
  = [(js "https://jobs.example/job/a", js "Senior Fitter");
     (js "https://jobs.example/job/b", js "Welder")].
Proof. vm_compute. reflexivity. Qed.

(** X6. The crawl's map is append-and-overwrite only: merging a batch
    keeps every link of the map at its position, appends the new links in
    the order of their first sighting, grows the map by exactly their
    number, and leaves the record of every link the batch does not name
    as it was. The three scripts merge alike. *)
Theorem merge_is_append_only (m : JsMap RawJob) (jobs : list RawJob) :
  let fresh := unseen (map_keys m) (raw_href <$> jobs) in
  (IndexJs.merge m jobs = Part000.merge m jobs
   /\ Part001.merge m jobs = Part000.merge m jobs)
  /\ map_keys (Part000.merge m jobs) = map_keys m ++ fresh
  /\ map_size (Part000.merge m jobs) = map_size m + length fresh
  /\ (forall k, k ∉ raw_href <$> jobs ->
        map_get k (Part000.merge m jobs) = map_get k m).
Proof.
  cbv zeta. change Part000.merge with merge_jobs.
  split; [done|]. split; [apply merge_jobs_keys|]. split.
  - unfold map_size. rewrite <- !(length_fmap fst).
    change (length (map_keys (merge_jobs m jobs))
            = length (map_keys m)
              + length (unseen (map_keys m) (raw_href <$> jobs))).
    by rewrite merge_jobs_keys, length_app.
  - intros k Hk. rewrite merge_jobs_get. unfold last_with_link.
    destruct (last _) as [j|] eqn:Hlast; [|done].
    apply last_Some_elem_of, list_elem_of_filter in Hlast as [<- Hin].
    exfalso. apply Hk. by apply list_elem_of_fmap_2.
Qed.

(* ================================================================== *)
(** * When the loop of index.js ends                                *)
(* ================================================================== *)

Section IndexJsTermination.
Import IndexJs.

Lemma index_js_url i :
  (if decide (i * PAGE_SIZE = 0) then BaseUrl else FromUrl (i * PAGE_SIZE))
  = offset_url PAGE_SIZE i.
Proof. done. Qed.

Lemma index_js_loop_on_full_pages site fuel :
  (forall j, full_batch scrapePage PAGE_SIZE site j) ->
  forall i c, length (visited c) = i ->
    crawl_loop fuel site (i * PAGE_SIZE) c = None.
Proof.
  intros Hfull. induction fuel as [|fuel IH]; intros i c Hlen; [done|].
  cbn [crawl_loop visited allJobsMap]. rewrite index_js_url, Hlen.
  destruct (Hfull i) as (jobs & -> & Hne & Hsz).
  rewrite decide_False by (by destruct jobs).
  rewrite decide_False by lia.
  replace (i * PAGE_SIZE + PAGE_SIZE) with (S i * PAGE_SIZE) by lia.
  apply IH. simpl. rewrite length_app. simpl. lia.
Qed.

Lemma index_js_loop_until_not_full site k :
  forall i c fuel,
    length (visited c) = i ->
    (forall j, i <= j < i + k -> full_batch scrapePage PAGE_SIZE site j) ->
    ¬ full_batch scrapePage PAGE_SIZE site (i + k) ->
    k < fuel ->
    exists r c', crawl_loop fuel site (i * PAGE_SIZE) c = Some (r, c')
      /\ visited c' = visited c ++ (offset_url PAGE_SIZE <$> seq i (S k)).
Proof.
  induction k as [|k IH]; intros i c fuel Hlen Hfull Hstop Hfuel;
    (destruct fuel as [|fuel]; [lia|]);
    cbn [crawl_loop visited allJobsMap]; rewrite index_js_url, Hlen.
  - rewrite Nat.add_0_r in Hstop.
    destruct (scrapePage (site i (offset_url PAGE_SIZE i))) as [jobs|e] eqn:Hpage;
      [|by eexists _, _].
    destruct (decide (length jobs = 0)); [by eexists _, _|].
    destruct (decide (length jobs < PAGE_SIZE)); [by eexists _, _|].
    exfalso. apply Hstop. exists jobs.
    split; [done|]. split; [by destruct jobs|lia].
  - destruct (Hfull i ltac:(lia)) as (jobs & -> & Hne & Hsz).
    rewrite decide_False by (by destruct jobs).
    rewrite decide_False by lia.
    replace (i * PAGE_SIZE + PAGE_SIZE) with (S i * PAGE_SIZE) by lia.
    edestruct (IH (S i)) as (r & c' & -> & Hvis).
    + simpl. rewrite length_app. simpl. lia.
    + intros j Hj. apply Hfull. lia.
    + by replace (S i + k) with (i + S k) by lia.
    + lia.
    + eexists _, _. split; [done|]. rewrite Hvis. simpl.
      by rewrite <- app_assoc.
Qed.

End IndexJsTermination.

(** X7. The crawl of index.js ends exactly when some page comes back
    empty, short or failed. While every page is full it never returns;
    and when page [k] is the first that is not full, it returns after
    having loaded the pages [0..k], one request per page, in order. *)
Theorem index_js_crawl_ends_at_first_partial_page (site : Site) :
  ((forall j, full_batch IndexJs.scrapePage IndexJs.PAGE_SIZE site j) ->
   forall fuel now, IndexJs.scrapeJobs fuel site now = None)
  /\ (forall k,
        (forall j, j < k -> full_batch IndexJs.scrapePage IndexJs.PAGE_SIZE site j) ->
        ¬ full_batch IndexJs.scrapePage IndexJs.PAGE_SIZE site k ->
        forall fuel now, k < fuel ->
          exists r c, IndexJs.scrapeJobs fuel site now = Some (r, c)
            /\ IndexJs.visited c = offset_url IndexJs.PAGE_SIZE <$> seq 0 (S k)).
Proof.
  split.
  - intros Hfull fuel now. unfold IndexJs.scrapeJobs.
    by rewrite (index_js_loop_on_full_pages site fuel Hfull 0).
  - intros k Hfull Hstop fuel now Hfuel. unfold IndexJs.scrapeJobs.
    destruct (index_js_loop_until_not_full site k 0 (IndexJs.mkCrawl [] []) fuel)
      as (r & c & Hrun & Hvis); [done|intros; apply Hfull; lia|done|done|].
    change (0 * IndexJs.PAGE_SIZE) with 0 in Hrun. rewrite Hrun.
    destruct r as [[]|e]; by eexists _, _.
Qed.

Lemma index_js_crawl_ends_at_first_partial_page_witness :
  (forall fuel now, IndexJs.scrapeJobs fuel Examples.same_page_site now = None)
  /\ (exists r c, IndexJs.scrapeJobs 2 Examples.two_page_site 1000 = Some (r, c)
        /\ IndexJs.visited c = [BaseUrl; FromUrl 10]).
Proof.
  split.
  - apply (proj1 (index_js_crawl_ends_at_first_partial_page Examples.same_page_site)).
    intros j. eexists. split; [reflexivity|]. split; [done|].
    vm_compute. lia.
  - apply (proj2 (index_js_crawl_ends_at_first_partial_page Examples.two_page_site) 1).
    + intros j Hj. assert (j = 0) as -> by lia.
      eexists. split; [reflexivity|]. split; [done|]. vm_compute. lia.
    + intros (jobs & Hpage & _ & Hsz). vm_compute in Hpage.
      injection Hpage as <-. vm_compute in Hsz. lia.
    + lia.
Defined.

(* ================================================================== *)
(** * Offset pagination, once more                                  *)
(* ================================================================== *)

(** X8. The offset crawl of part_000 makes [n <= MAX_PAGES] iterations,
    one page load each, at the offsets [0, PAGE_SIZE, ...] in order; every
    page before the last came back full; it stops short of the cap only at
    a page that is empty, short or failed, and then prints the line of
    that page (the empty page before the short one); at the cap after full
    pages it prints nothing; and the repeated-offset guard never fires. *)
Theorem part_000_offset_pagination (site : Site) (now : Z) :
  let c := (Part000.scrapeJobs site now).2 in
  let n := Part000.iterations c in
  let full := full_batch Part000.scrapePage Part000.PAGE_SIZE site in
  let page j := Part000.scrapePage (site j (offset_url Part000.PAGE_SIZE j)) in
  n <= Part000.MAX_PAGES
  /\ Part000.visited c = offset_url Part000.PAGE_SIZE <$> seq 0 n
  /\ (forall j, S j < n -> full j)
  /\ (n < Part000.MAX_PAGES ->
      exists j, n = S j /\ ¬ full j
        /\ Part000.console c = stop_line Part000.PAGE_SIZE (page j))
  /\ ((forall j, j < Part000.MAX_PAGES -> full j) ->
      n = Part000.MAX_PAGES /\ Part000.console c = [])
  /\ OffsetRepeated ∉ Part000.console c.
Proof.
  cbv zeta.
  destruct (part_000_pagination site now)
    as ((n & Hn & Hit & Hvis & _ & Hfull & Hend & Hrep) & Heq & _).
  cbv zeta in *. rewrite Heq, Hit.
  split; [done|]. split; [done|]. split; [done|].
  split; [|split; [|done]].
  - intros Hlt. destruct Hend as [(-> & _)|(j & -> & Hj & Hcon & _)]; [lia|].
    by exists j.
  - intros Hall. destruct Hend as [(-> & _ & Hcon & _)|(j & -> & Hj & _)]; [done|].
    exfalso. apply Hj, Hall. lia.
Qed.

Section Part001Offset.
Let crawl_offset_eq := crawl_offset_unfold.
Import Part001.

Lemma part_001_offset_url cfg i :
  (if decide (i * PAGE_SIZE cfg = 0) then BaseUrl else FromUrl (i * PAGE_SIZE cfg))
  = offset_url (PAGE_SIZE cfg) i.
Proof. done. Qed.

Lemma crawl_offset_stops cfg site k :
  forall i c, MAX_PAGES cfg - i <= k -> i <= MAX_PAGES cfg ->
    at_offset cfg site i c -> stopped_offset cfg site (crawl_offset cfg site i c).
Proof.
  induction k as [|k IH];
    intros i c Hk Hi (Hit & Hvis & Hfull & Hcon);
    rewrite crawl_offset_eq.
  { rewrite decide_False by lia. exists i. simpl.
    split; [done|]. split; [done|]. split; [done|].
    split; [intros; apply Hfull; lia|].
    left. repeat split; [lia|done..]. }
  destruct (decide (i < MAX_PAGES cfg)) as [Hlt|Hge].
  2:{ exists i. simpl.
      split; [done|]. split; [done|]. split; [done|].
      split; [intros; apply Hfull; lia|].
      left. repeat split; [lia|done..]. }
  cbv zeta. rewrite part_001_offset_url.
  assert (Hlen : length (visited c) = i) by (by rewrite Hvis, length_fmap, length_seq).
  rewrite Hlen.
  assert (Hvis' : visited c ++ [offset_url (PAGE_SIZE cfg) i]
                  = offset_url (PAGE_SIZE cfg) <$> seq 0 (S i)).
  { by rewrite seq_S, fmap_app, Hvis. }
  assert (Hnotfull : forall jobs,
            scrapePage (site i (offset_url (PAGE_SIZE cfg) i)) = Return jobs ->
            jobs = [] \/ length jobs < PAGE_SIZE cfg ->
            ¬ full_batch scrapePage (PAGE_SIZE cfg) site i).
  { intros jobs Hj Hshort (jobs' & Hj' & Hne & Hsz).
    rewrite Hj in Hj'. injection Hj' as <-. destruct Hshort; [done|lia]. }
  destruct (scrapePage (site i (offset_url (PAGE_SIZE cfg) i))) as [jobs|e] eqn:Hpage.
  - destruct (decide (length jobs = 0)) as [Hz|Hnz].
    + exists (S i). simpl.
      assert (jobs = []) as -> by (by destruct jobs).
      split; [lia|]. split; [by rewrite Hit|]. split; [done|].
      split; [intros; apply Hfull; lia|].
      right. exists i. rewrite Hpage.
      repeat split; [by eapply Hnotfull; eauto|by rewrite Hcon].
    + destruct (decide (length jobs < PAGE_SIZE cfg)) as [Hshort|Hlong].
      * exists (S i). simpl.
        split; [lia|]. split; [by rewrite Hit|]. split; [done|].
        split; [intros; apply Hfull; lia|].
        right. exists i. rewrite Hpage. simpl.
        rewrite decide_False, decide_True by done.
        repeat split; [by eapply Hnotfull; eauto|by rewrite Hcon].
      * apply IH; [lia|lia|]. simpl.
        split; [by rewrite Hit|]. split; [done|]. split; [|done].
        intros j Hj. destruct (decide (j = i)) as [->|]; [|apply Hfull; lia].
        exists jobs. repeat split; [done|by destruct jobs|lia].
  - exists (S i). simpl.
    split; [lia|]. split; [by rewrite Hit|]. split; [done|].
    split; [intros; apply Hfull; lia|].
    right. exists i. rewrite Hpage. repeat split; [|by rewrite Hcon].
    intros (jobs' & Hj' & _). by rewrite Hpage in Hj'.
Qed.

End Part001Offset.



(* ================================================================== *)
(** * 'Next' pagination, once more                                  *)
(* ================================================================== *)

Lemma next_loop_loads cfg site nexts k :
  forall p c, S (Part001.MAX_PAGES cfg) - p <= k ->
    let c' := (Part001.next_loop cfg site nexts p c).2 in
    exists l tail,
      Part001.visited c' = Part001.visited c ++ replicate l CurrentUrl
      /\ l <= S (Part001.MAX_PAGES cfg) - p
      /\ Part001.console c' = Part001.console c ++ tail.
Proof.
  induction k as [|k IH]; intros p c Hk; rewrite next_loop_unfold.
  { rewrite decide_False by lia. exists 0, []. simpl.
    rewrite !app_nil_r. repeat split; lia. }
  destruct (decide (p <= Part001.MAX_PAGES cfg)) as [Hp|Hp].
  2:{ exists 0, []. simpl. rewrite !app_nil_r. repeat split; lia. }
  cbv zeta. destruct (negb _ || negb _).
  { exists 0, [NoNextButton]. simpl. rewrite app_nil_r. repeat split; lia. }
  destruct (Part001.scrapePage _) as [more|e].
  2:{ exists 1, []. simpl. rewrite app_nil_r. repeat split; lia. }
  destruct (decide (length more = 0)).
  { exists 1, [NoJobsOnPage]. simpl. repeat split; lia. }
  destruct (decide (map_size _ = _)).
  { exists 1, [NoNewJobs]. simpl. repeat split; lia. }
  edestruct (IH (S p)) as (l & tail & Hvis & Hl & Hcon); [lia|].
  cbv zeta in *. exists (S l), tail. rewrite Hvis, Hcon. simpl.
  rewrite <- app_assoc. repeat split; lia.
Qed.



(** X11. In 'next' mode an empty first page does not end the crawl of
    part_001: it prints its line and, if the "next" control is there and
    enabled and [MAX_PAGES] allows a second page, clicks on and loads the
    next page. *)
Theorem next_mode_goes_on_after_empty_first_page cfg site nexts now :
  Part001.PAGINATION_MODE cfg = js "next" ->
  Part001.scrapePage (site 0 BaseUrl) = Return [] ->
  2 <= Part001.MAX_PAGES cfg ->
  next_usable (nexts 2) ->
  let c := (Part001.scrapeAll cfg site nexts now).2 in
  head (Part001.console c) = Some NoJobsFirstPage
  /\ exists l, Part001.visited c = BaseUrl :: CurrentUrl :: replicate l CurrentUrl.
Proof.
  intros Hmode Hfirst Hmax [Hcnt Hen]. cbv zeta.
  unfold Part001.scrapeAll. rewrite decide_True by done.
  unfold Part001.crawl_next. rewrite Hfirst. simpl.
  rewrite next_loop_unfold, decide_True by done. cbv zeta.
  rewrite Hen, bool_decide_true by done. simpl.
  destruct (Part001.scrapePage (site 1 CurrentUrl)) as [more|e];
    [|split; [done|by exists 0]].
  destruct (decide (length more = 0)); [split; [done|by exists 0]|].
  destruct (decide (map_size _ = _)); [split; [done|by exists 0]|].
  match goal with
  | |- context [Part001.next_loop cfg site nexts 3 ?c] => set (c1 := c)
  end.
  destruct (next_loop_loads cfg site nexts (S (Part001.MAX_PAGES cfg)) 3 c1
              ltac:(lia)) as (l & tail & Hvis & _ & Hcon).
  cbv zeta in *.
  destruct (Part001.next_loop cfg site nexts 3 c1) as [[[]|e] c'];
    simpl in *; rewrite Hvis, Hcon; (split; [done|by exists l]).
Qed.

Lemma next_mode_goes_on_after_empty_first_page_witness :
  let c := (Part001.scrapeAll (Examples.next_config 3) late_site
              Examples.next_enabled 1000).2 in
  head (Part001.console c) = Some NoJobsFirstPage
  /\ exists l, Part001.visited c = BaseUrl :: CurrentUrl :: replicate l CurrentUrl.
Proof.
  apply (next_mode_goes_on_after_empty_first_page (Examples.next_config 3)
           late_site Examples.next_enabled 1000).
  - reflexivity.
  - reflexivity.
  - vm_compute. lia.
  - split; [vm_compute; lia|reflexivity].
Defined.

(* ================================================================== *)
(** * The fields of a snapshot and of a row                         *)
(* ================================================================== *)

Section Fields.

#[local] Arguments is_ws : simpl never.

Lemma to_job_normalised (j : RawJob) :
  normalised_job (IndexJs.to_job j)
  /\ normalised_job (Part000.to_job j)
  /\ normalised_job (Part001.to_job j).
Proof.
  unfold normalised_job, normalised. simpl.
  unfold IndexJs.normaliseText, Part000.norm, Part001.norm. simpl or_empty.
  rewrite !trim_replace_ws_idem.
  repeat split; try done; apply extractCountry_country_like.
Qed.

Lemma normalised_spec (s : list N) :
  normalised s <-> collapsed s /\ trim s = s.
Proof.
  split; [|by intros [? ?]; apply normalised_fixed].
  unfold normalised. intros Hs. split.
  - rewrite <- Hs. apply collapsed_normalised.
  - rewrite <- Hs. apply trim_idem.
Qed.

Lemma trimEnd_snoc_ws (s : list N) (c : N) :
  is_ws c = true -> trimEnd (s ++ [c]) = trimEnd s.
Proof.
  intros Hc. induction s as [|x s IH]; simpl; [by rewrite Hc|]. by rewrite IH.
Qed.

Lemma trimEnd_app_fixed (s t : list N) :
  t ≠ [] -> trimEnd t = t -> trimEnd (s ++ t) = s ++ t.
Proof.
  intros Hne Ht. induction s as [|x s IH]; [done|]. simpl. rewrite IH.
  destruct (s ++ t) eqn:Hst; [|done]. by destruct s, t.
Qed.

Lemma trimmed_trimEnd (s : list N) : trim s = s -> trimEnd s = s.
Proof.
  intros Hs. rewrite <- Hs at 1. unfold trim. by rewrite trimEnd_idem.
Qed.

Lemma trimmed_starts_visible (s : list N) : trim s = s -> starts_visible s.
Proof. intros <-. apply trim_starts_visible. Qed.

(** [`${category} ${team}`.trim()] on trimmed fields. *)
Lemma description_of_trimmed (cat tm : list N) :
  trim cat = cat -> trim tm = tm ->
  trim (template_sp cat tm)
  = match cat, tm with
    | [], _ => tm
    | _, [] => cat
    | _, _ => cat ++ SP :: tm
    end.
Proof.
  intros Hcat Htm. unfold template_sp.
  destruct cat as [|c cat].
  - change (trim ([] ++ SP :: tm))
      with (trimEnd (if is_ws SP then trimStart tm else SP :: tm)).
    rewrite is_ws_SP. exact Htm.
  - assert (Hc : is_ws c = false) by (by apply (trimmed_starts_visible _ Hcat)).
    unfold trim. rewrite trimStart_visible by exact Hc.
    destruct tm as [|t tm].
    + rewrite trimEnd_snoc_ws by apply is_ws_SP. by apply trimmed_trimEnd.
    + assert (Heq : (c :: cat) ++ SP :: t :: tm
                    = ((c :: cat) ++ [SP]) ++ t :: tm)
        by (by rewrite <- app_assoc).
      rewrite Heq. apply trimEnd_app_fixed; [done|by apply trimmed_trimEnd].
Qed.

End Fields.

(** X12. Every record of a snapshot a crawl returns has normalised text
    fields: normalising its title, location, category or team again
    changes nothing; and its country is trimmed and holds no comma. *)
Theorem snapshot_fields_are_normalised :
  (forall fuel site now p c,
     IndexJs.scrapeJobs fuel site now = Some (Return p, c) ->
     Forall normalised_job (jobs p))
  /\ (forall site now p c,
     Part000.scrapeJobs site now = (Return p, c) ->
     Forall normalised_job (jobs p))
  /\ (forall cfg site nexts now p c,
     Part001.scrapeAll cfg site nexts now = (Return p, c) ->
     Forall normalised_job (jobs p)).
Proof.
  split; [|split].
  - intros fuel site now p c [-> _]%index_js_scrapeJobs_payload. simpl.
    apply Forall_fmap, Forall_forall. intros j _. apply to_job_normalised.
  - intros site now p c [-> _]%part_000_scrapeJobs_payload. simpl.
    apply Forall_fmap, Forall_forall. intros j _. apply to_job_normalised.
  - intros cfg site nexts now p c [-> _]%part_001_scrapeAll_payload. simpl.
    apply Forall_fmap, Forall_forall. intros j _. apply to_job_normalised.
Qed.

Lemma snapshot_fields_are_normalised_witness :
  match IndexJs.scrapeJobs 2 Examples.two_page_site 1000 with
  | Some (Return p, _) => Forall normalised_job (jobs p)
  | _ => False
  end
  /\ match Part000.scrapeJobs Examples.two_page_site 1000 with
     | (Return p, _) => Forall normalised_job (jobs p)
     | _ => False
     end
  /\ match Part001.scrapeAll (Examples.next_config 3) late_site
             Examples.next_enabled 1000 with
     | (Return p, _) => Forall normalised_job (jobs p)
     | _ => False
     end.
Proof.
  split; [|split].
  - destruct (IndexJs.scrapeJobs 2 Examples.two_page_site 1000)
      as [[[p|e] c]|] eqn:Hrun.
    + exact (proj1 snapshot_fields_are_normalised _ _ _ _ _ Hrun).
    + vm_compute in Hrun. discriminate Hrun.
    + vm_compute in Hrun. discriminate Hrun.
  - destruct (Part000.scrapeJobs Examples.two_page_site 1000)
      as [[p|e] c] eqn:Hrun.
    + exact (proj1 (proj2 snapshot_fields_are_normalised) _ _ _ _ Hrun).
    + vm_compute in Hrun. discriminate Hrun.
  - destruct (Part001.scrapeAll (Examples.next_config 3) late_site
                Examples.next_enabled 1000) as [[p|e] c] eqn:Hrun.
    + exact (proj2 (proj2 snapshot_fields_are_normalised) _ _ _ _ _ _ Hrun).
    + vm_compute in Hrun. discriminate Hrun.
Defined.

(** X13. The description of an upserted row, for a record with
    normalised fields: the team alone when there is no category, the
    category alone when there is no team (so the empty string when there
    is neither), and otherwise the two joined by one space. index.js and
    part_000 build it alike. *)
Theorem row_description (at_ : Z) (job : Job) :
  normalised_job job ->
  r_description (IndexJs.row_of at_ job) = r_description (Part000.row_of at_ job)
  /\ r_description (Part000.row_of at_ job)
     = match category job, team job with
       | [], _ => team job
       | _, [] => category job
       | _, _ => category job ++ SP :: team job
       end.
Proof.
  intros (_ & _ & Hcat & Htm & _). split; [done|]. simpl.
  apply normalised_spec in Hcat as [_ Hcat].
  apply normalised_spec in Htm as [_ Htm].
  by apply description_of_trimmed.
Qed.

Lemma row_description_witness :
  r_description (Part000.row_of 1000 fitter_job) = js "Engineering".
Proof.
  destruct (row_description 1000 fitter_job) as [_ ->]; [|reflexivity].
  unfold normalised_job, normalised.
  split; [vm_compute; reflexivity|]. split; [vm_compute; reflexivity|].
  split; [vm_compute; reflexivity|]. split; [vm_compute; reflexivity|].
  replace (country fitter_job)
    with (Part000.extractCountry (Some (js "Leeds, UK")))
    by (vm_compute; reflexivity).
  apply extractCountry_country_like.
Defined.

(* ================================================================== *)
(** * What reconciliation keeps                                     *)
(* ================================================================== *)

Section Kept.

Implicit Types (d : Store) (urls : list (list N)) (rows : list Row).

Lemma kept_refl urls d : kept urls d d.
Proof. intros url p Hp. by exists p. Qed.

Lemma kept_trans urls d1 d2 d3 :
  kept urls d1 d2 -> kept urls d2 d3 -> kept urls d1 d3.
Proof.
  intros H12 H23 url p Hp.
  destruct (H12 url p Hp) as (p2 & Hp2 & Hc2).
  destruct (H23 url p2 Hp2) as (p3 & Hp3 & Hc3).
  exists p3. split; [done|]. intros Hnot. by rewrite Hc3, Hc2.
Qed.

Lemma kept_upserts urls rows d :
  Forall (fun r => r_url r ∈ urls) rows -> kept urls d (foldl upsert_row d rows).
Proof.
  revert d. induction rows as [|r rows IH]; intros d Hin; [apply kept_refl|].
  inversion Hin as [|? ? Hr Hrows]; subst. simpl.
  eapply kept_trans; [|by apply IH].
  intros url p Hp. unfold upsert_row.
  destruct (decide (r_url r = url)) as [<-|Hne].
  - exists (persisted_of r). by rewrite lookup_insert_eq.
  - exists p. by rewrite lookup_insert_ne.
Qed.

Lemma kept_deactivate urls before d : kept urls d (deactivate_row before <$> d).
Proof.
  intros url p Hp. exists (deactivate_row before p).
  rewrite lookup_fmap, Hp. split; [done|]. intros _.
  unfold deactivate_row. by destruct (selected before p).
Qed.

Lemma kept_send urls faults rq b :
  match rq with
  | Upsert rows => Forall (fun r => r_url r ∈ urls) rows
  | Deactivate _ => True
  end ->
  kept urls (db b) (db (send faults rq b).2).
Proof.
  intros Hrq. unfold send.
  destruct (faults _); simpl; [apply kept_refl|].
  destruct rq as [rows|before]; simpl.
  - by apply kept_upserts.
  - apply kept_deactivate.
Qed.

Lemma slice_urls rows i n :
  Forall (fun r => r_url r ∈ r_url <$> rows) (take n (drop i rows)).
Proof.
  apply Forall_forall. intros r Hr. apply list_elem_of_fmap_2.
  eapply elem_of_sublist; [exact Hr|].
  etrans; [apply sublist_take|apply sublist_drop].
Qed.

Lemma kept_upsert_chunks faults rows k :
  forall i b, length rows - i <= k ->
    kept (r_url <$> rows) (db b) (db (Part000.upsert_chunks faults rows i b).2).
Proof.
  induction k as [|k IH]; intros i b Hk; rewrite upsert_chunks_unfold.
  { rewrite decide_False by lia. apply kept_refl. }
  case_decide; [|apply kept_refl].
  assert (Hsend := kept_send (r_url <$> rows) faults
                     (Upsert (take Part000.CHUNK (drop i rows))) b
                     (slice_urls rows i Part000.CHUNK)).
  destruct (send faults _ b) as [[e|] b1]; [done|].
  eapply kept_trans; [exact Hsend|]. apply IH. unfold Part000.CHUNK. lia.
Qed.

Lemma kept_index_js_upserts faults urls rows :
  Forall (fun r => r_url r ∈ urls) rows ->
  forall b,
    kept urls (db b)
      (db (foldl (fun b row => (send faults (Upsert [row]) b).2) b rows)).
Proof.
  induction rows as [|r rows IH]; intros Hin b; [apply kept_refl|].
  inversion Hin; subst. simpl.
  eapply kept_trans; [|by apply IH].
  apply kept_send. by constructor.
Qed.

End Kept.

(** X14. Neither script ever deletes a row, whatever the store answers:
    after [updateDatabase] every row of the table is still there, and a
    row whose url is not in the snapshot has its title, location,
    description and stamp untouched (only its active flag may have
    changed). *)
Theorem updateDatabase_never_deletes (faults : Faults) (clock : nat -> Z)
    (payload : Payload) (b : Backend) :
  kept (href <$> jobs payload) (db b)
       (db (IndexJs.updateDatabase faults clock payload b).2)
  /\ kept (href <$> jobs payload) (db b)
          (db (Part000.updateDatabase faults payload b).2).
Proof.
  split.
  - unfold IndexJs.updateDatabase. cbv zeta. simpl.
    eapply kept_trans; [by apply (kept_send _ faults (Deactivate None))|].
    apply kept_index_js_upserts.
    apply Forall_forall. intros r (k & job & -> & Hjob)%elem_of_lookup_imap_1.
    simpl. apply list_elem_of_fmap_2. by eapply list_elem_of_lookup_2.
  - unfold Part000.updateDatabase. cbv zeta.
    set (rows := Part000.row_of _ <$> _).
    assert (Hurls : r_url <$> rows = href <$> jobs payload).
    { unfold rows. rewrite <- list_fmap_compose. done. }
    assert (Hchunks := kept_upsert_chunks faults rows (length rows) 0 b ltac:(lia)).
    rewrite Hurls in Hchunks.
    destruct (Part000.upsert_chunks faults rows 0 b) as [[[]|e] b1]; [|done].
    assert (Hsend := kept_send (href <$> jobs payload) faults
                       (Deactivate (Some (scraped_at payload))) b1 I).
    destruct (send faults _ b1) as [[e|] b2]; by eapply kept_trans.
Qed.

(* ================================================================== *)
(** * Reconciliation, once more                                     *)
(* ================================================================== *)

Section MoreStore.

Implicit Types (d : Store) (rows : list Row) (b : Backend) (faults : Faults).

Lemma upsert_chunks_chunks faults rows k :
  (forall n, faults n = None) ->
  forall i b, length rows - i <= k ->
    exists chunks,
      received (Part000.upsert_chunks faults rows i b).2
        = received b ++ (Upsert <$> chunks)
      /\ concat chunks = drop i rows
      /\ bounded_chunks Part000.CHUNK chunks.
Proof.
  intros Hnone. induction k as [|k IH]; intros i b Hk;
    rewrite upsert_chunks_unfold.
  { rewrite decide_False by lia. exists []. simpl.
    rewrite app_nil_r, drop_ge by lia.
    split; [done|]. split; [done|]. split; [constructor|by intros j ch ?]. }
  destruct (decide (i < length rows)) as [Hi|Hi].
  2:{ exists []. simpl. rewrite app_nil_r, drop_ge by lia.
      split; [done|]. split; [done|]. split; [constructor|by intros j ch ?]. }
  unfold send. rewrite Hnone.
  set (slice := take Part000.CHUNK (drop i rows)).
  set (b1 := mkBackend _ _).
  destruct (IH (i + Part000.CHUNK) b1) as (chunks & Hrec & Hcat & Hall & Hfull).
  { unfold Part000.CHUNK. lia. }
  exists (slice :: chunks).
  assert (Hslice : length slice = Part000.CHUNK `min` (length rows - i)).
  { unfold slice. by rewrite length_take, length_drop. }
  split; [|split; [|split]].
  - rewrite Hrec. simpl. by rewrite <- app_assoc.
  - simpl. rewrite Hcat. unfold slice.
    rewrite <- (drop_drop rows Part000.CHUNK i). apply take_drop.
  - constructor; [|done]. unfold Part000.CHUNK in *. lia.
  - intros [|j] ch Hch Hj; simpl in Hch, Hj.
    + injection Hch as <-. destruct chunks as [|ch' chunks']; [simpl in Hj; lia|].
      inversion Hall as [|? ? Hch' _]; subst.
      assert (Hdrop : length (drop (i + Part000.CHUNK) rows) <> 0).
      { rewrite <- Hcat. simpl. rewrite length_app. lia. }
      rewrite length_drop in Hdrop. unfold Part000.CHUNK in *. lia.
    + apply (Hfull j ch Hch). lia.
Qed.

Lemma upserts_lookup_in (url : list N) rows :
  url ∈ r_url <$> rows ->
  exists r, r ∈ rows /\ r_url r = url
    /\ forall d, foldl upsert_row d rows !! url = Some (persisted_of r).
Proof.
  induction rows as [|r0 rest IH]; [by intros ?%elem_of_nil|].
  intros Hin. destruct (decide (url ∈ r_url <$> rest)) as [Hrest|Hrest].
  - destruct (IH Hrest) as (r & Hr & Hurl & Hlook).
    exists r. split; [by right|]. split; [done|]. intros d. apply Hlook.
  - rewrite fmap_cons in Hin. apply elem_of_cons in Hin as [->|Hin]; [|done].
    exists r0. split; [by left|]. split; [done|]. intros d. simpl.
    rewrite upserts_other by done. unfold upsert_row. apply lookup_insert_eq.
Qed.

Lemma index_js_sends faults rows :
  (forall n, faults n = None) ->
  forall b,
    db (foldl (fun b row => (send faults (Upsert [row]) b).2) b rows)
    = foldl upsert_row (db b) rows.
Proof.
  intros Hnone. induction rows as [|r rows IH]; intros b; [done|].
  simpl. rewrite IH. unfold send. by rewrite Hnone.
Qed.

Lemma index_js_row_urls (clock : nat -> Z) (l : list Job) :
  r_url <$> imap (fun k job => IndexJs.row_of (clock k) job) l = href <$> l.
Proof. rewrite fmap_imap. apply (imap_const href). Qed.

Lemma index_js_final_db faults clock payload b :
  (forall n, faults n = None) ->
  db (IndexJs.updateDatabase faults clock payload b).2
  = foldl upsert_row (deactivate_row None <$> db b)
      (imap (fun k job => IndexJs.row_of (clock k) job) (jobs payload)).
Proof.
  intros Hnone. unfold IndexJs.updateDatabase. cbv zeta. simpl.
  rewrite index_js_sends by done. unfold send. by rewrite Hnone.
Qed.

Lemma part_000_final_db faults payload b :
  (forall n, faults n = None) ->
  exists b', Part000.updateDatabase faults payload b = (Return tt, b')
    /\ db b' = deactivate_row (Some (scraped_at payload))
               <$> foldl upsert_row (db b)
                     (Part000.row_of (scraped_at payload) <$> jobs payload).
Proof.
  intros Hnone.
  destruct (updateDatabase_succeeds faults payload b Hnone) as [b' Hrun].
  exists b'. split; [done|]. by apply updateDatabase_returns in Hrun as [? _].
Qed.

Lemma deactivate_row_inactive before p :
  p_is_active p = true -> p_is_active (deactivate_row before p) = true ->
  selected before p = false.
Proof.
  unfold deactivate_row. by destruct (selected before p).
Qed.

Lemma deactivate_row_idem before p :
  deactivate_row before (deactivate_row before p) = deactivate_row before p.
Proof.
  unfold deactivate_row. destruct (selected before p) eqn:Hsel; [done|].
  by rewrite Hsel.
Qed.

End MoreStore.

(** X15. When the store accepts every request, [updateDatabase] of
    part_000 sends the rows of the snapshot, in order, in upserts of at
    most [CHUNK] = 500 rows, none of them empty and all but the last one
    full, and then one deactivation gated on the snapshot's stamp. *)
Theorem part_000_upserts_in_bounded_chunks faults payload b :
  (forall n, faults n = None) ->
  exists chunks,
    received (Part000.updateDatabase faults payload b).2
    = received b ++ (Upsert <$> chunks)
        ++ [Deactivate (Some (scraped_at payload))]
    /\ concat chunks = Part000.row_of (scraped_at payload) <$> jobs payload
    /\ bounded_chunks Part000.CHUNK chunks.
Proof.
  intros Hnone. unfold Part000.updateDatabase. cbv zeta.
  set (rows := Part000.row_of _ <$> _).
  destruct (upsert_chunks_chunks faults rows (length rows) Hnone 0 b ltac:(lia))
    as (chunks & Hrec & Hcat & Hb).
  destruct (upsert_chunks_post faults rows (length rows) 0 b ltac:(lia))
    as (ups & _ & _ & Hres).
  exists chunks. rewrite drop_0 in Hcat. split; [|done].
  destruct (Part000.upsert_chunks faults rows 0 b) as [[[]|e] b1]; simpl in *.
  - unfold send. rewrite Hnone. simpl. by rewrite Hrec, <- app_assoc.
  - destruct Hres as (j & _ & Hf & _). by rewrite Hnone in Hf.
Qed.

Lemma part_000_upserts_in_bounded_chunks_witness :
  exists chunks,
    received (Part000.updateDatabase Examples.no_faults Examples.snapshot_bc
                (mkBackend Examples.earlier_run [])).2
    = [] ++ (Upsert <$> chunks) ++ [Deactivate (Some 1000%Z)]
    /\ concat chunks = Part000.row_of 1000 <$> jobs Examples.snapshot_bc
    /\ bounded_chunks Part000.CHUNK chunks.
Proof.
  exact (part_000_upserts_in_bounded_chunks Examples.no_faults
           Examples.snapshot_bc (mkBackend Examples.earlier_run [])
           (fun _ => eq_refl)).
Defined.

(** X16. When the store accepts every request, [updateDatabase] of
    part_000 returns, and the table then holds: for every record of the
    snapshot an active row stamped with the snapshot's stamp; every other
    row it held before, deactivated if it was active and older than that
    stamp and otherwise untouched; and no row beyond these. *)
Theorem part_000_reconciliation faults payload b :
  (forall n, faults n = None) ->
  exists b',
    Part000.updateDatabase faults payload b = (Return tt, b')
    /\ (forall job, job ∈ jobs payload ->
          exists p, db b' !! href job = Some p
                    /\ refreshed (scraped_at payload) p)
    /\ (forall url, url ∉ href <$> jobs payload ->
          db b' !! url
          = deactivate_row (Some (scraped_at payload)) <$> db b !! url).
Proof.
  intros Hnone.
  destruct (part_000_final_db faults payload b Hnone) as (b' & Hrun & Hdb).
  exists b'. split; [done|].
  destruct (updateDatabase_reconciles faults payload b b' Hrun) as (Hin & _).
  split; [exact Hin|].
  intros url Hnot. rewrite Hdb, lookup_fmap, upserts_other; [done|].
  by rewrite <- list_fmap_compose.
Qed.

Lemma part_000_reconciliation_witness :
  exists b',
    Part000.updateDatabase Examples.no_faults Examples.snapshot_b
      (mkBackend Examples.stale_and_later []) = (Return tt, b')
    /\ (forall job, job ∈ jobs Examples.snapshot_b ->
          exists p, db b' !! href job = Some p /\ refreshed 1000 p)
    /\ (forall url, url ∉ href <$> jobs Examples.snapshot_b ->
          db b' !! url
          = deactivate_row (Some 1000%Z) <$> Examples.stale_and_later !! url).
Proof.
  exact (part_000_reconciliation Examples.no_faults Examples.snapshot_b
           (mkBackend Examples.stale_and_later []) (fun _ => eq_refl)).
Defined.

(** X17. A failed chunk aborts part_000: when the upsert of some chunk
    is answered with an error, [updateDatabase] throws that error, the run
    has sent no deactivation, and the process exits with code 1. *)
Theorem part_000_failed_chunk_aborts site now faults b payload c k rows e :
  Part000.scrapeJobs site now = (Return payload, c) ->
  let res := Part000.updateDatabase faults payload b in
  let sent := drop (length (received b)) (received res.2) in
  sent !! k = Some (Upsert rows) ->
  faults (length (received b) + k) = Some e ->
  res.1 = Throw e
  /\ deactivations sent = []
  /\ Part000.exit_code (Part000.main site now faults b) = 1.
Proof.
  intros Hs res sent Hk Hf.
  destruct (updateDatabase_chunk_failure faults payload b k rows e Hk Hf)
    as [Hres Hnone].
  split; [done|]. split.
  - fold res sent in Hnone. clearbody sent. clear -Hnone.
    induction sent as [|rq sent IH]; [done|].
    destruct rq as [rs|t].
    + apply IH. intros t Hin. apply (Hnone t). by right.
    + exfalso. apply (Hnone t). by left.
  - by eapply main_chunk_failure.
Qed.

Lemma part_000_failed_chunk_aborts_witness :
  Part000.exit_code
    (Part000.main Examples.two_jobs_site 1000 (Examples.fault_at 0)
       (mkBackend Examples.earlier_run [])) = 1.
Proof.
  destruct (Part000.scrapeJobs Examples.two_jobs_site 1000) as [[p|e] c] eqn:Hs.
  - refine (proj2 (proj2 (part_000_failed_chunk_aborts Examples.two_jobs_site
                             1000 (Examples.fault_at 0)
                             (mkBackend Examples.earlier_run []) p c 0
                             (Part000.row_of (scraped_at p) <$> jobs p)
                             (StoreError 500) Hs _ eq_refl))).
    vm_compute in Hs. injection Hs as <- _. vm_compute. reflexivity.
  - vm_compute in Hs. discriminate Hs.
Defined.

(** X18. After a run of [updateDatabase] of index.js in which the store
    accepts every request, the active rows of the table are exactly the
    records of the snapshot: every other row is inactive, whatever its
    stamp was. *)
Theorem index_js_active_rows_are_the_snapshot faults clock payload b :
  (forall n, faults n = None) ->
  forall url,
    active_in (db (IndexJs.updateDatabase faults clock payload b).2) url
    <-> url ∈ href <$> jobs payload.
Proof.
  intros Hnone url. rewrite index_js_final_db by done.
  set (rows := imap _ _).
  assert (Hurls : r_url <$> rows = href <$> jobs payload)
    by apply index_js_row_urls.
  split.
  - intros (p & Hp & Hact).
    destruct (decide (url ∈ href <$> jobs payload)) as [|Hnot]; [done|].
    exfalso. rewrite upserts_other, lookup_fmap in Hp by (by rewrite Hurls).
    destruct (db b !! url) as [q|]; [|done]. injection Hp as <-.
    unfold deactivate_row, selected in Hact.
    destruct (p_is_active q) eqn:Hq; simpl in Hact; congruence.
  - intros Hin. rewrite <- Hurls in Hin.
    destruct (upserts_lookup_in url rows Hin) as (r & Hr & _ & Hlook).
    exists (persisted_of r). split; [apply Hlook|].
    apply elem_of_lookup_imap_1 in Hr as (k & job & -> & _). done.
Qed.

Lemma index_js_active_rows_are_the_snapshot_witness :
  active_in
    (db (IndexJs.updateDatabase Examples.no_faults Examples.later_clock
           Examples.snapshot_b (mkBackend Examples.stale_and_later [])).2)
    (js "https://jobs.example/job/b").
Proof.
  apply (index_js_active_rows_are_the_snapshot Examples.no_faults
           Examples.later_clock Examples.snapshot_b
           (mkBackend Examples.stale_and_later []) (fun _ => eq_refl)).
  apply list_elem_of_here.
Defined.

(** X19. After a run of [updateDatabase] of part_000 in which the store
    accepts every request, on a table whose active rows are all older
    than the snapshot, the active rows are exactly the records of the
    snapshot. *)
Theorem part_000_active_rows_are_the_snapshot faults payload b :
  (forall n, faults n = None) ->
  (forall url p, db b !! url = Some p -> p_is_active p = true ->
     (p_updated_at p < scraped_at payload)%Z) ->
  forall url,
    active_in (db (Part000.updateDatabase faults payload b).2) url
    <-> url ∈ href <$> jobs payload.
Proof.
  intros Hnone Hold url.
  destruct (part_000_final_db faults payload b Hnone) as (b' & Hrun & Hdb).
  destruct (updateDatabase_reconciles faults payload b b' Hrun) as (Hin & _).
  assert (Hout : forall url, url ∉ href <$> jobs payload ->
            db b' !! url
            = deactivate_row (Some (scraped_at payload)) <$> db b !! url).
  { intros u Hnot. rewrite Hdb, lookup_fmap, upserts_other; [done|].
    by rewrite <- list_fmap_compose. }
  rewrite Hrun. simpl. split.
  - intros (p & Hp & Hact).
    destruct (decide (url ∈ href <$> jobs payload)) as [|Hnot]; [done|].
    exfalso. rewrite Hout in Hp by done.
    destruct (db b !! url) as [q|] eqn:Hq; [|done]. injection Hp as <-.
    unfold deactivate_row, selected in Hact.
    destruct (p_is_active q) eqn:Hqa; simpl in Hact; [|congruence].
    rewrite (proj2 (Z.ltb_lt _ _) (Hold url q Hq Hqa)) in Hact. done.
  - intros (job & -> & Hjob)%list_elem_of_fmap.
    destruct (Hin job Hjob) as (p & Hp & Hact & _). by exists p.
Qed.

Lemma part_000_active_rows_are_the_snapshot_witness :
  active_in
    (db (Part000.updateDatabase Examples.no_faults Examples.snapshot_b
           (mkBackend Examples.earlier_run [])).2)
    (js "https://jobs.example/job/a")
  <-> js "https://jobs.example/job/a" ∈ href <$> jobs Examples.snapshot_b.
Proof.
  apply (part_000_active_rows_are_the_snapshot Examples.no_faults
           Examples.snapshot_b (mkBackend Examples.earlier_run [])
           (fun _ => eq_refl)).
  intros url p Hp _. simpl in Hp. unfold Examples.earlier_run in Hp.
  apply lookup_insert_Some in Hp as [[_ <-]|[_ Hp]]; [done|].
  apply lookup_insert_Some in Hp as [[_ <-]|[_ Hp]]; [done|].
  by rewrite lookup_empty in Hp.
Defined.

(** X20. Running [updateDatabase] of part_000 again with the same
    snapshot changes nothing in the table, when the store accepts every
    request. *)
Theorem part_000_rerun_changes_nothing faults payload b :
  (forall n, faults n = None) ->
  let once := (Part000.updateDatabase faults payload b).2 in
  db (Part000.updateDatabase faults payload once).2 = db once.
Proof.
  intros Hnone. cbv zeta.
  destruct (part_000_final_db faults payload b Hnone) as (b1 & Hrun1 & Hdb1).
  rewrite Hrun1. simpl.
  destruct (part_000_final_db faults payload b1 Hnone) as (b2 & Hrun2 & Hdb2).
  rewrite Hrun2. simpl. rewrite Hdb2, Hdb1.
  set (T := scraped_at payload). set (rows := Part000.row_of T <$> jobs payload).
  apply map_eq. intros url. rewrite !lookup_fmap.
  destruct (decide (url ∈ r_url <$> rows)) as [Hin|Hnot].
  - destruct (upserts_lookup_in url rows Hin) as (r & _ & _ & Hlook).
    by rewrite !Hlook.
  - rewrite (upserts_other url rows _ Hnot), lookup_fmap.
    rewrite (upserts_other url rows _ Hnot).
    destruct (db b !! url); simpl; [|done]. by rewrite deactivate_row_idem.
Qed.

Lemma part_000_rerun_changes_nothing_witness :
  let once := (Part000.updateDatabase Examples.no_faults Examples.snapshot_bc
                 (mkBackend Examples.earlier_run [])).2 in
  db (Part000.updateDatabase Examples.no_faults Examples.snapshot_bc once).2
  = db once.
Proof.
  exact (part_000_rerun_changes_nothing Examples.no_faults Examples.snapshot_bc
           (mkBackend Examples.earlier_run []) (fun _ => eq_refl)).
Defined.

Section Runs.


Lemma part_000_crawl_throws site k e :
  k < Part000.MAX_PAGES ->
  (forall j, j < k -> full_batch Part000.scrapePage Part000.PAGE_SIZE site j) ->
  Part000.scrapePage (site k (offset_url Part000.PAGE_SIZE k)) = Throw e ->
  let res := Part000.crawl_loop site 0 (Part000.mkCrawl [] ∅ 0 [] []) in
  res.1 = Throw e /\ Part000.iterations res.2 = S k.
Proof.
  intros Hk Hfull Hthrow. cbv zeta.
  destruct (part_000_pagination site 0)
    as ((n & Hn & Hit & Hvis & _ & Hprev & Hend & _) & _).
  cbv zeta in *.
  assert (Hnot : ¬ full_batch Part000.scrapePage Part000.PAGE_SIZE site k).
  { intros (jobs & Hj & _). congruence. }
  destruct Hend as [(-> & Hall & _)|(j & -> & Hj & _ & Hres)].
  { exfalso. by apply Hnot, Hall. }
  assert (j = k) as ->.
  { destruct (decide (j < k)) as [Hlt|Hge]; [exfalso; by apply Hj, Hfull|].
    destruct (decide (k < j)) as [Hlt|Hge']; [|lia].
    exfalso. apply Hnot, Hprev. lia. }
  rewrite Hthrow in Hres. by rewrite Hit.
Qed.

Lemma part_001_crawl_throws cfg site k e :
  k < Part001.MAX_PAGES cfg ->
  (forall j, j < k ->
     full_batch Part001.scrapePage (Part001.PAGE_SIZE cfg) site j) ->
  Part001.scrapePage (site k (offset_url (Part001.PAGE_SIZE cfg) k)) = Throw e ->
  let res := Part001.crawl_offset cfg site 0 (Part001.mkCrawl [] 0 [] []) in
  res.1 = Throw e /\ Part001.iterations res.2 = S k.
Proof.
  intros Hk Hfull Hthrow. cbv zeta.
  destruct (crawl_offset_stops cfg site (Part001.MAX_PAGES cfg) 0
              (Part001.mkCrawl [] 0 [] []) ltac:(lia) ltac:(lia))
    as (n & Hn & Hit & Hvis & Hprev & Hend).
  { split; [done|]. split; [done|]. split; [intros j Hj; lia|done]. }
  cbv zeta in *.
  assert (Hnot : ¬ full_batch Part001.scrapePage (Part001.PAGE_SIZE cfg) site k).
  { intros (jobs & Hj & _). congruence. }
  destruct Hend as [(-> & Hall & _)|(j & -> & Hj & _ & Hres)].
  { exfalso. by apply Hnot, Hall. }
  assert (j = k) as ->.
  { destruct (decide (j < k)) as [Hlt|Hge]; [exfalso; by apply Hj, Hfull|].
    destruct (decide (k < j)) as [Hlt|Hge']; [|lia].
    exfalso. apply Hnot, Hprev. lia. }
  rewrite Hthrow in Hres. by rewrite Hit.
Qed.

End Runs.

(** X21. What a run of part_001 leaves outside itself: it sends at most
    one POST; a POST is sent only after [public/jobs.json] has been
    written, carries the payload of the crawl that is in the file, and
    has a non-empty URL and ingest key and the configured tenant; and the
    exit code is 0 exactly when that one POST was answered with a status
    from 200 to 299. *)
Theorem part_001_delivery cfg site nexts now writes_ok sink :
  let r := Part001.main cfg site nexts now writes_ok sink in
  let o := Part001.outputs r in
  length (Part001.posts o) <= 1
  /\ (forall rq, rq ∈ Part001.posts o ->
        Part001.jobs_json o = Some (Part001.body rq)
        /\ (Part001.scrapeAll cfg site nexts now).1 = Return (Part001.body rq)
        /\ Part001.post_url rq ≠ []
        /\ Part001.x_ingest_key rq ≠ []
        /\ Part001.x_tenant_id rq = Part001.TENANT_ID cfg)
  /\ (Part001.exit_code r = 0 <->
        exists rq status,
          Part001.posts o = [rq] /\ sink rq = Some status
          /\ 200 <= status <= 299).
Proof.
  cbv zeta. unfold Part001.main.
  destruct (Part001.scrapeAll cfg site nexts now) as [[payload|e] c]; simpl.
  2:{ split; [lia|]. split; [by intros rq ?%elem_of_nil|].
      split; [done|]. by intros (rq & st & ? & _). }
  unfold Part001.saveJson. destruct writes_ok; simpl.
  2:{ split; [lia|]. split; [by intros rq ?%elem_of_nil|].
      split; [done|]. by intros (rq & st & ? & _). }
  unfold Part001.postToBolt.
  destruct (Part001.BOLT_INGEST_URL cfg) as [[|u us]|] eqn:Hurl; simpl;
    try (split; [lia|]; split; [by intros rq ?%elem_of_nil|];
         split; [done|]; by intros (rq & st & ? & _)).
  destruct (Part001.INGEST_KEY cfg) as [[|k ks]|] eqn:Hkey; simpl;
    try (split; [lia|]; split; [by intros rq ?%elem_of_nil|];
         split; [done|]; by intros (rq & st & ? & _)).
  set (rq0 := Part001.mkPost _ _ _ _ _).
  assert (Hposts : forall rq, rq ∈ [rq0] ->
            Some payload = Some (Part001.body rq)
            /\ Return payload = Return (Part001.body rq)
            /\ Part001.post_url rq ≠ [] /\ Part001.x_ingest_key rq ≠ []
            /\ Part001.x_tenant_id rq = Part001.TENANT_ID cfg).
  { intros rq ->%list_elem_of_singleton. by subst rq0. }
  destruct (sink rq0) as [status|] eqn:Hsink; simpl.
  - case_bool_decide as Hok; simpl.
    + split; [lia|]. split; [exact Hposts|]. split; [|done].
      intros _. by exists rq0, status.
    + split; [lia|]. split; [exact Hposts|]. split; [done|].
      intros (rq & st & [= <-] & Hst & Hrange). congruence.
  - split; [lia|]. split; [exact Hposts|]. split; [done|].
    intros (rq & st & [= <-] & Hst & _). congruence.
Qed.

(** X22. A page load that fails aborts part_000: when the pages before
    page [k] are full and [scrapePage] throws on page [k], the run ends
    after [k + 1] page loads with exit code 1 and has sent nothing to the
    store, whatever the earlier pages had gathered. *)
Theorem part_000_failed_page_aborts site now faults b k e :
  k < Part000.MAX_PAGES ->
  (forall j, j < k -> full_batch Part000.scrapePage Part000.PAGE_SIZE site j) ->
  Part000.scrapePage (site k (offset_url Part000.PAGE_SIZE k)) = Throw e ->
  let r := Part000.main site now faults b in
  Part000.exit_code r = 1
  /\ Part000.backend r = b
  /\ Part000.iterations (Part000.crawl r) = S k.
Proof.
  intros Hk Hfull Hthrow. cbv zeta.
  destruct (part_000_crawl_throws site k e Hk Hfull Hthrow) as [Hres Hit].
  unfold Part000.main, Part000.scrapeJobs.
  destruct (Part000.crawl_loop site 0 _) as [[[]|e'] c]; simpl in *; [done|].
  done.
Qed.

Lemma part_000_failed_page_aborts_witness :
  let r := Part000.main failing_second_page 1000 Examples.no_faults
             (mkBackend Examples.earlier_run []) in
  Part000.exit_code r = 1
  /\ Part000.backend r = mkBackend Examples.earlier_run []
  /\ Part000.iterations (Part000.crawl r) = 2.
Proof.
  apply (part_000_failed_page_aborts failing_second_page 1000 Examples.no_faults
           (mkBackend Examples.earlier_run []) 1 NavigationError).
  - unfold Part000.MAX_PAGES. lia.
  - intros j Hj. assert (j = 0) as -> by lia.
    eexists. split; [vm_compute; reflexivity|]. split; [discriminate|].
    vm_compute. lia.
  - reflexivity.
Defined.

(** X23. The same in the offset mode of part_001: when the pages before
    page [k] are full and [scrapePage] throws on page [k], the run ends
    after [k + 1] page loads with exit code 1, and has neither written
    [public/jobs.json] nor sent a POST. *)
Theorem part_001_failed_page_aborts cfg site nexts now writes_ok sink k e :
  Part001.PAGINATION_MODE cfg ≠ js "next" ->
  k < Part001.MAX_PAGES cfg ->
  (forall j, j < k ->
     full_batch Part001.scrapePage (Part001.PAGE_SIZE cfg) site j) ->
  Part001.scrapePage (site k (offset_url (Part001.PAGE_SIZE cfg) k)) = Throw e ->
  let r := Part001.main cfg site nexts now writes_ok sink in
  Part001.exit_code r = 1
  /\ Part001.outputs r = Part001.mkOutputs None []
  /\ Part001.iterations (Part001.crawl r) = S k.
Proof.
  intros Hmode Hk Hfull Hthrow. cbv zeta.
  destruct (part_001_crawl_throws cfg site k e Hk Hfull Hthrow) as [Hres Hit].
  unfold Part001.main, Part001.scrapeAll. rewrite decide_False by done.
  destruct (Part001.crawl_offset cfg site 0 _) as [[[]|e'] c]; simpl in *;
    [done|]. done.
Qed.

Lemma part_001_failed_page_aborts_witness :
  let r := Part001.main offset_config failing_second_page Examples.next_absent
             1000 true Examples.accepting_sink in
  Part001.exit_code r = 1
  /\ Part001.outputs r = Part001.mkOutputs None []
  /\ Part001.iterations (Part001.crawl r) = 2.
Proof.
  apply (part_001_failed_page_aborts offset_config failing_second_page
           Examples.next_absent 1000 true Examples.accepting_sink 1
           NavigationError).
  - discriminate.
  - simpl. lia.
  - intros j Hj. assert (j = 0) as -> by lia.
    eexists. split; [vm_compute; reflexivity|]. split; [discriminate|].
    vm_compute. lia.
  - reflexivity.
Defined.


